(** * The multiscale Demons driver of [Python/66_Registration_Demons.ipynb]

    A shallow embedding of the two functions the notebook defines itself,
    [smooth_and_resample] and [multiscale_demons], together with the part of
    SimpleITK they call.

    Modelling conventions.
    - Python floats are modelled by exact rationals [Q]: finite values only
      (no infinity, no NaN, so [int] raises neither [OverflowError] nor
      [ValueError]) and without the rounding error of the floating-point
      unit.  Numeric statements are about the formulas the code evaluates;
      where a computed value is compared with an exact one, the statement
      allows for [rounding_tolerance] or keeps a margin from the rounding
      boundary.
    - A SimpleITK image is a Python object: the notebook holds references to
      images, and two SimpleITK calls ([CopyInformation] and the constructor of
      [DisplacementFieldTransform]) modify the object they are given.  Images
      therefore live in a heap and the code manipulates handles.
    - Exceptions raised by the notebook's own Python code (division by zero,
      [zip] over [None], indexing) are modelled; the numeric primitives of
      SimpleITK (smoothing, resampling, transform sampling, the registration
      filter) are modelled on their documented successful behaviour: the grid
      of the result is computed, the pixel values are left to parameters. *)

From Stdlib Require Import ZArith QArith Qround Qabs Lia Lqa.
From stdpp Require Import base option list.

Local Open Scope Z_scope.

(** ** Python results and exceptions *)

Inductive PyExn : Type :=
| ZeroDivisionError   (* float division by zero *)
| TypeError           (* [zip] applied to [None] *)
| IndexError          (* [l[0]] or [l[-1]] on an empty list *)
| RuntimeError        (* an exception thrown inside SimpleITK *)
| InvalidHandle.      (* a handle that is not in the heap; no Python analogue *)

Inductive Result (A : Type) : Type :=
| Return (a : A)
| Raise (e : PyExn).
Arguments Return {A} a.
Arguments Raise {A} e.

#[export] Instance Result_ret : MRet Result := fun _ a => Return a.
#[export] Instance Result_bind : MBind Result := fun _ _ f r =>
  match r with
  | Return a => f a
  | Raise e => Raise e
  end.

(** ** Arithmetic of [smooth_and_resample] *)

(** [x / y] on Python floats. *)
Definition float_div (x y : Q) : Result Q :=
  if Qeq_bool y 0 then Raise ZeroDivisionError else Return (x / y)%Q.

(** [int(x)] on a Python float: truncation toward zero. *)
Definition int (x : Q) : Z := Z.quot (Qnum x) (Zpos (Qden x)).

(** One element of
    [[int(sz/float(shrink_factor) + 0.5) for sz in original_size]]. *)
Definition new_size_axis (sz : Z) (shrink_factor : Q) : Result Z :=
  q ← float_div (inject_Z sz) shrink_factor;
  mret (int (Qplus q (1 # 2))).

Definition new_size (original_size : list Z) (shrink_factor : Q)
  : Result (list Z) :=
  mapM (fun sz => new_size_axis sz shrink_factor) original_size.

(** Python's [zip] of three sequences stops at the shortest. *)
Fixpoint zip3 {A B C} (l1 : list A) (l2 : list B) (l3 : list C)
  : list (A * B * C) :=
  match l1, l2, l3 with
  | a :: l1, b :: l2, c :: l3 => (a, b, c) :: zip3 l1 l2 l3
  | _, _, _ => []
  end.

(** One element of
    [[((original_sz-1)*original_spc)/(new_sz-1) for ... in zip(...)]]. *)
Definition new_spacing_axis (a : Z * Q * Z) : Result Q :=
  let '(original_sz, original_spc, new_sz) := a in
  float_div (inject_Z (original_sz - 1) * original_spc)%Q
            (inject_Z (new_sz - 1)).

Definition new_spacing (original_size : list Z) (original_spacing : list Q)
    (new_sizes : list Z) : Result (list Q) :=
  mapM new_spacing_axis (zip3 original_size original_spacing new_sizes).

(** The code computes with double-precision floats, the model with exact
    rationals.  [rounding_tolerance] is [2^-50]: the relative error of up to
    three rounded double-precision operations stays below it.  Statements that
    compare a computed value with the exact one allow for this tolerance, so
    that they hold of the doubles as well. *)
Definition rounding_tolerance : Q := 1 # 1125899906842624.

(** ** SimpleITK images *)

Inductive PixelIDValue : Type :=
| sitkUInt8 | sitkFloat32 | sitkFloat64 | sitkVectorFloat64.

(** The value of an image object: its grid (size, spacing, origin, direction),
    its pixel type and its pixels.  A pixel is the list of its components: one
    for a scalar image, one per axis for a displacement field. *)
Record Image : Type := mkImage {
  img_size : list Z;
  img_spacing : list Q;
  img_origin : list Q;
  img_direction : list Q;
  img_pixel_id : PixelIDValue;
  img_pixel : list Z -> list Q
}.

(** Images are referred to by handles: positions in the heap. *)
Definition handle : Type := nat.

(** The value returned by [multiscale_demons].  The transform owns the
    displacement field it was built from. *)
Record DisplacementFieldTransformValue : Type := mkDisplacementFieldTransform {
  displacement_field : Image
}.

(** The SimpleITK calls the notebook makes, with their arguments and the handle
    of the image they return. *)
Inductive SitkCall : Type :=
| CallSmoothingRecursiveGaussian (image : handle) (sigma : Q) (out : handle)
| CallResample (image : handle) (size : list Z) (origin spacing direction : list Q)
               (out : handle)
| CallResampleLike (image reference : handle) (out : handle)
| CallTransformToDisplacementField (size : list Z) (origin spacing direction : list Q)
                                   (out : handle)
| CallImage (width height depth : Z) (out : handle)
| CallCopyInformation (self source : handle)
| CallExecute (fixed moving field : handle) (out : handle)
| CallDisplacementFieldTransform (field : handle).

(** Identity direction cosines of a [dim]-dimensional image, row by row. *)
Definition identity_direction (dim : nat) : list Q :=
  flat_map (fun i => map (fun j => if Nat.eqb i j then 1%Q else 0%Q) (seq 0 dim))
           (seq 0 dim).

(** [sitk.Image(width, height, depth, pixelID)] for a vector pixel type: a
    two-dimensional image when [depth] is 0 and a three-dimensional one
    otherwise, unit spacing, zero origin, one component per axis, every
    component zero. *)
Definition new_vector_image (width height depth : Z) (pixelID : PixelIDValue)
  : Image :=
  let size := if depth =? 0 then [width; height] else [width; height; depth] in
  let dim := length size in
  {| img_size := size;
     img_spacing := replicate dim 1%Q;
     img_origin := replicate dim 0%Q;
     img_direction := identity_direction dim;
     img_pixel_id := pixelID;
     img_pixel := fun _ => replicate dim 0%Q |}.

(** [sitk.Image()]: what is left of an image whose buffer was taken over. *)
Definition default_image : Image :=
  {| img_size := [0; 0];
     img_spacing := [1%Q; 1%Q];
     img_origin := [0%Q; 0%Q];
     img_direction := identity_direction 2;
     img_pixel_id := sitkUInt8;
     img_pixel := fun _ => [] |}.

(** Equality test on sizes, used by [CopyInformation]. *)
Definition same_size (a b : list Z) : bool :=
  bool_decide (a = b).

(** ** Arithmetic of [bspline_intra_modal_registration] *)

(** [grid_physical_spacing = [50.0, 50.0, 50.0]]: a control point every 50mm. *)
Definition grid_physical_spacing : list Q := [50%Q; 50%Q; 50%Q].

(** [[size*spacing for size,spacing in zip(fixed_image.GetSize(),
    fixed_image.GetSpacing())]]. *)
Definition image_physical_size (fixed_image : Image) : list Q :=
  zip_with (fun size spacing => (inject_Z size * spacing)%Q)
           (img_size fixed_image) (img_spacing fixed_image).

(** One element of
    [[int(image_size/grid_spacing + 0.5) for image_size,grid_spacing in
      zip(image_physical_size,grid_physical_spacing)]]. *)
Definition mesh_size_axis (a : Q * Q) : Result Z :=
  let '(image_size, grid_spacing) := a in
  q ← float_div image_size grid_spacing;
  mret (int (Qplus q (1 # 2))).

(** The [mesh_size] handed to [sitk.BSplineTransformInitializer]. *)
Definition mesh_size (fixed_image : Image) : Result (list Z) :=
  mapM mesh_size_axis (zip (image_physical_size fixed_image) grid_physical_spacing).

(** The image has one spacing per axis. *)
Definition well_formed (img : Image) : Prop :=
  length (img_spacing img) = length (img_size img).

(** ** The Python runtime *)

(** The heap of image objects, the state of the registration filter object
    (of a type [Filter] that the caller chooses) and the SimpleITK calls made so
    far, oldest first. *)
Record Runtime (Filter : Type) : Type := mkRuntime {
  heap : list Image;
  registration_algorithm : Filter;
  calls : list SitkCall
}.
Arguments mkRuntime {Filter} heap registration_algorithm calls.
Arguments heap {Filter} r.
Arguments registration_algorithm {Filter} r.
Arguments calls {Filter} r.

(** ** A small instance of the parameters, used to run the model *)

(** An 8 x 8 scalar image with unit spacing whose pixel is its first index. *)
Definition sample_image : Image :=
  {| img_size := [8; 8];
     img_spacing := [1%Q; 1%Q];
     img_origin := [0%Q; 0%Q];
     img_direction := identity_direction 2;
     img_pixel_id := sitkFloat32;
     img_pixel := fun idx => [inject_Z (nth 0 idx 0)] |}.

(** Smoothing and resampling that keep the pixel function. *)
Definition sample_smooth_pixels (img : Image) (sigma : Q) : list Z -> list Q :=
  img_pixel img.

Definition sample_resample_pixels (img : Image) (size : list Z)
    (origin spacing direction : list Q) : list Z -> list Q :=
  img_pixel img.

(** The only transform: a translation by one unit along every axis. *)
Definition sample_transform_pixels (t : unit) (size : list Z)
    (origin spacing direction : list Q) : list Z -> list Q :=
  fun _ => replicate (length size) 1%Q.

(** A filter that counts its runs and returns the field it was given. *)
Definition sample_execute (runs : nat) (fixed moving field : Image)
  : nat * Image :=
  (S runs, field).

(** What the sample smoothing and resampling make of [sample_image] on a grid
    of the given size and spacing. *)
Definition sample_level (size : list Z) (spacing : list Q) : Image :=
  {| img_size := size;
     img_spacing := spacing;
     img_origin := img_origin sample_image;
     img_direction := img_direction sample_image;
     img_pixel_id := img_pixel_id sample_image;
     img_pixel := img_pixel sample_image |}.

(** A four-dimensional image (a volume over time), and a heap that holds it
    as fixed and as moving image. *)
Definition sample_image_4d : Image :=
  {| img_size := [8; 8; 8; 2];
     img_spacing := [1%Q; 1%Q; 1%Q; 1%Q];
     img_origin := [0%Q; 0%Q; 0%Q; 0%Q];
     img_direction := identity_direction 4;
     img_pixel_id := sitkFloat32;
     img_pixel := fun idx => [inject_Z (nth 0 idx 0)] |}.

Definition sample_runtime_4d : Runtime nat :=
  mkRuntime [sample_image_4d; sample_image_4d] 0%nat [].

(** Two images in the heap: the fixed image at handle 0, the moving image at
    handle 1. *)
Definition sample_runtime : Runtime nat :=
  mkRuntime [sample_image; sample_image] 0%nat [].

Section Driver.

(** *** Parameters: the numeric content of SimpleITK and of the filter *)

(** Pixels of the Gaussian-smoothed image. *)
Variable smooth_pixels : Image -> Q -> list Z -> list Q.
(** Pixels of an image resampled onto the grid (size, origin, spacing,
    direction) with the identity transform, linear interpolation and default
    pixel value 0. *)
Variable resample_pixels :
  Image -> list Z -> list Q -> list Q -> list Q -> list Z -> list Q.
(** Initial transforms, and their sampling on a grid. *)
Variable Transform : Type.
Variable transform_pixels :
  Transform -> list Z -> list Q -> list Q -> list Q -> list Z -> list Q.
(** The registration algorithm: an object with a state of its own and an
    [Execute] method that returns a new displacement field. *)
Variable Filter : Type.
Variable filter_execute : Filter -> Image -> Image -> Image -> Filter * Image.

(** *** The [Py] monad: state and exceptions *)

Definition Py (A : Type) : Type :=
  Runtime Filter -> Result A * Runtime Filter.

#[local] Instance Py_ret : MRet Py := fun _ a rt => (Return a, rt).
#[local] Instance Py_bind : MBind Py := fun _ _ f c rt =>
  match c rt with
  | (Return a, rt') => f a rt'
  | (Raise e, rt') => (Raise e, rt')
  end.

Definition lift {A} (r : Result A) : Py A := fun rt => (r, rt).

Definition deref (h : handle) : Py Image := fun rt =>
  match heap rt !! h with
  | Some img => (Return img, rt)
  | None => (Raise InvalidHandle, rt)
  end.

Definition alloc (img : Image) : Py handle := fun rt =>
  (Return (length (heap rt)),
   mkRuntime (heap rt ++ [img]) (registration_algorithm rt) (calls rt)).

Definition assign (h : handle) (img : Image) : Py () := fun rt =>
  (Return (),
   mkRuntime (<[h := img]> (heap rt)) (registration_algorithm rt) (calls rt)).

Definition record_call (c : SitkCall) : Py () := fun rt =>
  (Return (),
   mkRuntime (heap rt) (registration_algorithm rt) (calls rt ++ [c])).

(** [for x in items: body], with the loop-carried local variables [s]. *)
Fixpoint for_loop {A S} (items : list A) (body : S -> A -> Py S) (s : S)
  : Py S :=
  match items with
  | [] => mret s
  | x :: items => s' ← body s x; for_loop items body s'
  end.

(** [l[0]] and [l[-1]]. *)
Definition first_item {A} (l : list A) : Py A :=
  match head l with
  | Some x => mret x
  | None => lift (Raise IndexError)
  end.

Definition last_item {A} (l : list A) : Py A :=
  match last l with
  | Some x => mret x
  | None => lift (Raise IndexError)
  end.

(** *** Image methods *)

Definition GetSize (image : handle) : Py (list Z) :=
  img ← deref image; mret (img_size img).
Definition GetSpacing (image : handle) : Py (list Q) :=
  img ← deref image; mret (img_spacing img).
Definition GetOrigin (image : handle) : Py (list Q) :=
  img ← deref image; mret (img_origin img).
Definition GetDirection (image : handle) : Py (list Q) :=
  img ← deref image; mret (img_direction img).
Definition GetPixelID (image : handle) : Py PixelIDValue :=
  img ← deref image; mret (img_pixel_id img).
Definition GetWidth (image : handle) : Py Z :=
  img ← deref image; mret (nth 0 (img_size img) 0).
Definition GetHeight (image : handle) : Py Z :=
  img ← deref image; mret (nth 1 (img_size img) 0).
(** [GetDepth] is 0 for a two-dimensional image. *)
Definition GetDepth (image : handle) : Py Z :=
  img ← deref image; mret (nth 2 (img_size img) 0).

(** [self.CopyInformation(source)]: copies origin, spacing and direction into
    [self]; SimpleITK throws when the sizes differ. *)
Definition CopyInformation (self source : handle) : Py () :=
  dst ← deref self;
  src ← deref source;
  _ ← record_call (CallCopyInformation self source);
  if same_size (img_size dst) (img_size src) then
    assign self {| img_size := img_size dst;
                   img_spacing := img_spacing src;
                   img_origin := img_origin src;
                   img_direction := img_direction src;
                   img_pixel_id := img_pixel_id dst;
                   img_pixel := img_pixel dst |}
  else lift (Raise RuntimeError).

(** *** SimpleITK procedures *)

Definition smoothed (img : Image) (sigma : Q) : Image :=
  {| img_size := img_size img;
     img_spacing := img_spacing img;
     img_origin := img_origin img;
     img_direction := img_direction img;
     img_pixel_id := img_pixel_id img;
     img_pixel := smooth_pixels img sigma |}.

Definition resampled (img : Image) (size : list Z)
    (origin spacing direction : list Q) (pixelID : PixelIDValue) : Image :=
  {| img_size := size;
     img_spacing := spacing;
     img_origin := origin;
     img_direction := direction;
     img_pixel_id := pixelID;
     img_pixel := resample_pixels img size origin spacing direction |}.

Definition SmoothingRecursiveGaussian (image : handle) (sigma : Q)
  : Py handle :=
  img ← deref image;
  out ← alloc (smoothed img sigma);
  _ ← record_call (CallSmoothingRecursiveGaussian image sigma out);
  mret out.

(** [sitk.Resample(image, size, sitk.Transform(), sitk.sitkLinear, origin,
    spacing, direction, 0.0, pixelID)]. *)
Definition Resample (image : handle) (size : list Z)
    (origin spacing direction : list Q) (pixelID : PixelIDValue) : Py handle :=
  img ← deref image;
  out ← alloc (resampled img size origin spacing direction pixelID);
  _ ← record_call (CallResample image size origin spacing direction out);
  mret out.

(** [sitk.Resample(image, reference)]: onto the grid of [reference], with the
    identity transform, linear interpolation, default value 0 and the pixel
    type of [image]. *)
Definition ResampleLike (image reference : handle) : Py handle :=
  img ← deref image;
  ref ← deref reference;
  out ← alloc (resampled img (img_size ref) (img_origin ref) (img_spacing ref)
                         (img_direction ref) (img_pixel_id img));
  _ ← record_call (CallResampleLike image reference out);
  mret out.

Definition TransformToDisplacementField (t : Transform)
    (pixelID : PixelIDValue) (size : list Z)
    (origin spacing direction : list Q) : Py handle :=
  out ← alloc {| img_size := size;
                 img_spacing := spacing;
                 img_origin := origin;
                 img_direction := direction;
                 img_pixel_id := pixelID;
                 img_pixel := transform_pixels t size origin spacing direction |};
  _ ← record_call (CallTransformToDisplacementField size origin spacing direction out);
  mret out.

(** [sitk.Image(width, height, depth, pixelID)]. *)
Definition NewImage (width height depth : Z) (pixelID : PixelIDValue)
  : Py handle :=
  out ← alloc (new_vector_image width height depth pixelID);
  _ ← record_call (CallImage width height depth out);
  mret out.

(** [registration_algorithm.Execute(fixed, moving, field)]: the filter reads
    its three arguments, updates its own state and returns a new image. *)
Definition run_filter (f m d : Image) : Py Image := fun rt =>
  let '(alg, result) := filter_execute (registration_algorithm rt) f m d in
  (Return result, mkRuntime (heap rt) alg (calls rt)).

Definition Execute (fixed moving field : handle) : Py handle :=
  f ← deref fixed;
  m ← deref moving;
  d ← deref field;
  result ← run_filter f m d;
  out ← alloc result;
  _ ← record_call (CallExecute fixed moving field out);
  mret out.

(** [sitk.DisplacementFieldTransform(field)]: the transform takes over the
    buffer of [field], which is left a default-constructed image. *)
Definition DisplacementFieldTransform (field : handle)
  : Py DisplacementFieldTransformValue :=
  d ← deref field;
  _ ← assign field default_image;
  _ ← record_call (CallDisplacementFieldTransform field);
  mret (mkDisplacementFieldTransform d).

(** *** [smooth_and_resample] *)

Definition smooth_and_resample (image : handle)
    (shrink_factor smoothing_sigma : Q) : Py handle :=
  smoothed_image ← SmoothingRecursiveGaussian image smoothing_sigma;
  original_spacing ← GetSpacing image;
  original_size ← GetSize image;
  new_size ← lift (new_size original_size shrink_factor);
  new_spacing ← lift (new_spacing original_size original_spacing new_size);
  origin ← GetOrigin image;
  direction ← GetDirection image;
  pixelID ← GetPixelID image;
  Resample smoothed_image new_size origin new_spacing direction pixelID.

(** *** [multiscale_demons] *)

(** Truth value of [shrink_factors]: [None] and the empty list are false. *)
Definition truthy {A} (l : option (list A)) : bool :=
  match l with
  | Some (_ :: _) => true
  | _ => false
  end.

(** [list(zip(shrink_factors, smoothing_sigmas))], evaluated only when
    [shrink_factors] is a non-empty list. *)
Definition zip_descriptors (shrink_factors smoothing_sigmas : option (list Q))
  : Py (list (Q * Q)) :=
  match shrink_factors, smoothing_sigmas with
  | Some sfs, Some sss => mret (zip sfs sss)
  | _, _ => lift (Raise TypeError)
  end.

(** Body of the pyramid loop; the loop-carried variables are the two lists
    [fixed_images] and [moving_images]. *)
Definition pyramid_step (lists : list handle * list handle) (descriptor : Q * Q)
  : Py (list handle * list handle) :=
  let '(fixed_images, moving_images) := lists in
  let '(shrink_factor, smoothing_sigma) := descriptor in
  fixed_base ← first_item fixed_images;
  fixed_level ← smooth_and_resample fixed_base shrink_factor smoothing_sigma;
  let fixed_images := fixed_images ++ [fixed_level] in
  moving_base ← first_item moving_images;
  moving_level ← smooth_and_resample moving_base shrink_factor smoothing_sigma;
  let moving_images := moving_images ++ [moving_level] in
  mret (fixed_images, moving_images).

(** The block under [# Create image pyramid.] *)
Definition create_image_pyramid (fixed_image moving_image : handle)
    (shrink_factors smoothing_sigmas : option (list Q))
  : Py (list handle * list handle) :=
  let fixed_images := [fixed_image] in
  let moving_images := [moving_image] in
  if truthy shrink_factors then
    descriptors ← zip_descriptors shrink_factors smoothing_sigmas;
    for_loop (reverse descriptors) pyramid_step (fixed_images, moving_images)
  else mret (fixed_images, moving_images).

(** The block under [# Create initial displacement field at lowest
    resolution.]  A transform object is always true. *)
Definition create_initial_displacement_field
    (initial_transform : option Transform) (fixed_images : list handle)
  : Py handle :=
  match initial_transform with
  | Some t =>
      top ← last_item fixed_images;
      size ← GetSize top;
      top ← last_item fixed_images;
      origin ← GetOrigin top;
      top ← last_item fixed_images;
      spacing ← GetSpacing top;
      top ← last_item fixed_images;
      direction ← GetDirection top;
      TransformToDisplacementField t sitkVectorFloat64 size origin spacing direction
  | None =>
      top ← last_item fixed_images;
      width ← GetWidth top;
      top ← last_item fixed_images;
      height ← GetHeight top;
      top ← last_item fixed_images;
      depth ← GetDepth top;
      initial_displacement_field ← NewImage width height depth sitkVectorFloat64;
      top ← last_item fixed_images;
      _ ← CopyInformation initial_displacement_field top;
      mret initial_displacement_field
  end.

(** Body of the loop under [# Start at the top of the pyramid and work our
    way down.]; the loop-carried variable is [initial_displacement_field]. *)
Definition registration_step (initial_displacement_field : handle)
    (level : handle * handle) : Py handle :=
  let '(f_image, m_image) := level in
  initial_displacement_field ← ResampleLike initial_displacement_field f_image;
  Execute f_image m_image initial_displacement_field.

(** [l[0:-1]]. *)
Definition all_but_last {A} (l : list A) : list A := removelast l.

(** The block from [# Run the registration.] to the [return]. *)
Definition run_registration (fixed_images moving_images : list handle)
    (initial_displacement_field : handle)
  : Py DisplacementFieldTransformValue :=
  top_fixed ← last_item fixed_images;
  top_moving ← last_item moving_images;
  initial_displacement_field ←
    Execute top_fixed top_moving initial_displacement_field;
  initial_displacement_field ←
    for_loop (reverse (zip (all_but_last fixed_images)
                           (all_but_last moving_images)))
             registration_step initial_displacement_field;
  DisplacementFieldTransform initial_displacement_field.

(** The whole function.  Its first argument, the [registration_algorithm]
    object, is the filter of the runtime. *)
Definition multiscale_demons (fixed_image moving_image : handle)
    (initial_transform : option Transform)
    (shrink_factors smoothing_sigmas : option (list Q))
  : Py DisplacementFieldTransformValue :=
  '(fixed_images, moving_images) ←
    create_image_pyramid fixed_image moving_image shrink_factors smoothing_sigmas;
  initial_displacement_field ←
    create_initial_displacement_field initial_transform fixed_images;
  run_registration fixed_images moving_images initial_displacement_field.

(** *** Derived notions used in the statements *)

(** The image [smooth_and_resample] produces, as a function of the value of
    its argument. *)
Definition level_image (img : Image) (shrink_factor smoothing_sigma : Q)
  : Result Image :=
  sizes ← new_size (img_size img) shrink_factor;
  spacings ← new_spacing (img_size img) (img_spacing img) sizes;
  mret (resampled (smoothed img smoothing_sigma) sizes (img_origin img)
                  spacings (img_direction img) (img_pixel_id img)).

(** Distance, per axis, between the first and the last sample. *)
Definition physical_extent (img : Image) : list Q :=
  zip_with (fun sz spc => (inject_Z (sz - 1) * spc)%Q)
           (img_size img) (img_spacing img).

(** Two images are defined on the same grid. *)
Definition same_grid (a b : Image) : Prop :=
  img_size a = img_size b /\ img_spacing a = img_spacing b /\
  img_origin a = img_origin b /\ img_direction a = img_direction b.

(** The shrink factor collapses some axis of the image to a single sample. *)
Definition collapses (img : Image) (shrink_factor : Q) : Prop :=
  exists sz, sz ∈ img_size img /\ new_size_axis sz shrink_factor = Return 1.

(** Handle [h] holds the level that descriptor [d] derives from [base]. *)
Definition holds_level (rt : Runtime Filter) (base : Image) (h : handle)
    (d : Q * Q) : Prop :=
  exists lvl, level_image base d.1 d.2 = Return lvl /\ heap rt !! h = Some lvl.

(** A sequence of SimpleITK calls in which every level is made by smoothing
    one of the two base images and resampling the smoothed image. *)
Inductive pyramid_calls (fixed moving : handle) : list SitkCall -> Prop :=
| pyramid_calls_nil : pyramid_calls fixed moving []
| pyramid_calls_level base sigma n size origin spacing direction cs :
    base = fixed \/ base = moving ->
    pyramid_calls fixed moving cs ->
    pyramid_calls fixed moving
      (CallSmoothingRecursiveGaussian base sigma n
       :: CallResample n size origin spacing direction (S n) :: cs).

(** The image is two-dimensional, or three-dimensional with a non-empty
    third axis: the images [sitk.Image(width, height, depth, pixelID)] can
    match. *)
Definition two_or_three_dimensional (img : Image) : Prop :=
  (exists w h, img_size img = [w; h]) \/
  (exists w h d, img_size img = [w; h; d] /\ d <> 0).

(** The all-zero displacement field on the grid of [img]. *)
Definition zero_displacement_field (img : Image) : Image :=
  {| img_size := img_size img;
     img_spacing := img_spacing img;
     img_origin := img_origin img;
     img_direction := img_direction img;
     img_pixel_id := sitkVectorFloat64;
     img_pixel := fun _ => replicate (length (img_size img)) 0%Q |}.

(** The displacement field [TransformToDisplacementField] samples from [t] on
    the grid of [img]. *)
Definition transform_displacement_field (t : Transform) (img : Image) : Image :=
  {| img_size := img_size img;
     img_spacing := img_spacing img;
     img_origin := img_origin img;
     img_direction := img_direction img;
     img_pixel_id := sitkVectorFloat64;
     img_pixel := transform_pixels t (img_size img) (img_origin img)
                                   (img_spacing img) (img_direction img) |}.

(** The displacement field [field] resampled onto the grid of [ref]. *)
Definition resampled_like (field ref : Image) : Image :=
  resampled field (img_size ref) (img_origin ref) (img_spacing ref)
            (img_direction ref) (img_pixel_id field).

(** The loop of [run_registration] on image values: each level resamples the
    field onto the grid of its fixed image and hands it to the filter. *)
Fixpoint refine (alg : Filter) (field : Image) (levels : list (Image * Image))
  : Filter * Image :=
  match levels with
  | [] => (alg, field)
  | (f, m) :: levels =>
      let '(alg', out) := filter_execute alg f m (resampled_like field f) in
      refine alg' out levels
  end.

(** [run_registration] on image values: the filter runs on the first (top)
    level with the initial field as it is, then [refine] takes over. *)
Definition coarse_to_fine (alg : Filter) (field : Image)
    (levels : list (Image * Image)) : Filter * Image :=
  match levels with
  | [] => (alg, field)
  | (f, m) :: levels =>
      let '(alg', out) := filter_execute alg f m field in
      refine alg' out levels
  end.

(** The calls of that loop: [field] is the handle of the current field and
    [next] the next free handle. *)
Fixpoint loop_calls (levels : list (handle * handle)) (field next : handle)
  : list SitkCall :=
  match levels with
  | [] => []
  | (f, m) :: levels =>
      CallResampleLike field f next
      :: CallExecute f m next (S next)
      :: loop_calls levels (S next) (S (S next))
  end.

(** The handle of the field when that loop ends. *)
Definition final_field (levels : list (handle * handle)) (field next : handle)
  : handle :=
  match levels with
  | [] => field
  | _ :: _ => (next + 2 * length levels - 1)%nat
  end.

(** The calls section 4.2 of the specification prescribes for the levels
    [levels], listed coarsest first: execute on each level; when the level is
    not the last, resample the result onto the next level's grid; after the
    last, wrap the result as a transform. *)
Fixpoint spec_level_calls (levels : list (handle * handle))
    (field next : handle) : list SitkCall :=
  match levels with
  | [] => []
  | (f, m) :: rest =>
      CallExecute f m field next
      :: match rest with
         | [] => [CallDisplacementFieldTransform next]
         | (f', _) :: _ =>
             CallResampleLike next f' (S next)
             :: spec_level_calls rest (S next) (S (S next))
         end
  end.

(** The levels on which [Execute] was called, in call order. *)
Definition executed_levels (cs : list SitkCall) : list (handle * handle) :=
  omap (fun c => match c with
                 | CallExecute f m _ _ => Some (f, m)
                 | _ => None
                 end) cs.

(** Running [c] in a heap of at least [n0] cells leaves the first [n0] cells
    as they were, and what it returns satisfies [post]. *)
Definition frames {A} (n0 : nat) (c : Py A) (post : A -> Prop) : Prop :=
  forall rt, (n0 <= length (heap rt))%nat ->
    (n0 <= length (heap (c rt).2))%nat /\
    take n0 (heap (c rt).2) = take n0 (heap rt) /\
    forall a, (c rt).1 = Return a -> post a.

(** The handles [levels] refer to the images [level_images]. *)
Definition levels_hold (rt : Runtime Filter) (levels : list (handle * handle))
    (level_images : list (Image * Image)) : Prop :=
  Forall2 (fun hs imgs => heap rt !! hs.1 = Some imgs.1 /\
                          heap rt !! hs.2 = Some imgs.2)
          levels level_images.

(** Image [a] has, on every axis, at most as many samples as image [b]. *)
Definition no_finer (a b : Image) : Prop :=
  Forall2 Z.le (img_size a) (img_size b).

(** The images behind the handles [hs] are listed from finest to coarsest:
    each one is no finer than the one before it. *)
Definition finest_first (rt : Runtime Filter) (hs : list handle) : Prop :=
  forall i h h' a b,
    hs !! i = Some h -> hs !! S i = Some h' ->
    heap rt !! h = Some a -> heap rt !! h' = Some b -> no_finer b a.

(** The images behind the handles [hs] are listed from coarsest to finest. *)
Definition coarsest_first (rt : Runtime Filter) (hs : list handle) : Prop :=
  forall i h h' a b,
    hs !! i = Some h -> hs !! S i = Some h' ->
    heap rt !! h = Some a -> heap rt !! h' = Some b -> no_finer a b.

(** *** Arithmetic lemmas *)

Lemma float_div_Return (x y : Q) :
  ~ (y == 0)%Q -> float_div x y = Return (x / y)%Q.
Proof.
  intros Hy. unfold float_div.
  destruct (Qeq_bool y 0) eqn:E; [|reflexivity].
  apply Qeq_bool_iff in E. contradiction.
Qed.

Lemma float_div_Raise (x y : Q) :
  (y == 0)%Q -> float_div x y = Raise ZeroDivisionError.
Proof.
  intros Hy. unfold float_div. apply Qeq_bool_iff in Hy. now rewrite Hy.
Qed.

Lemma int_floor (q : Q) : (0 <= q)%Q -> int q = Qfloor q.
Proof.
  destruct q as [n d]. unfold Qle, int, Qfloor; simpl. intros H.
  apply Z.quot_div_nonneg; lia.
Qed.

Lemma floor_half_bounds (x : Q) :
  (inject_Z (Qfloor (x + (1 # 2))) - (1 # 2) <= x)%Q /\
  (x < inject_Z (Qfloor (x + (1 # 2))) + (1 # 2))%Q.
Proof.
  pose proof (Qfloor_le (x + (1 # 2))) as Hle.
  pose proof (Qlt_floor (x + (1 # 2))) as Hlt.
  rewrite inject_Z_plus in Hlt. change (inject_Z 1) with 1%Q in Hlt.
  split; lra.
Qed.

Lemma quotient_nonneg (sz : Z) (sf : Q) :
  0 <= sz -> (0 < sf)%Q -> (0 <= inject_Z sz / sf)%Q.
Proof.
  intros Hsz Hsf. apply Qle_shift_div_l; [assumption|].
  rewrite Qmult_0_l. change 0%Q with (inject_Z 0). now rewrite <- Zle_Qle.
Qed.

Lemma new_size_axis_floor (sz : Z) (sf : Q) :
  0 <= sz -> (0 < sf)%Q ->
  new_size_axis sz sf = Return (Qfloor (inject_Z sz / sf + (1 # 2))).
Proof.
  intros Hsz Hsf. unfold new_size_axis.
  rewrite float_div_Return by lra. cbn.
  rewrite int_floor; [reflexivity|].
  pose proof (quotient_nonneg sz sf Hsz Hsf). lra.
Qed.

Lemma mapM_Return {A B} (f : A -> Result B) (l : list A) (k : list B) :
  mapM f l = Return k <-> Forall2 (fun x y => f x = Return y) l k.
Proof.
  revert k. induction l as [|x l IH]; intros k; cbn.
  - split.
    + intros [= <-]. constructor.
    + intros H. inversion H. reflexivity.
  - destruct (f x) as [y|e] eqn:Ex; cbn.
    + destruct (mapM f l) as [k'|e] eqn:El; cbn.
      * split.
        -- intros [= <-]. constructor; [assumption|]. now apply IH.
        -- intros H. inversion H as [|? y' ? k'' Hy Hk]; subst.
           apply IH in Hk. cbv [mret Result_ret]. congruence.
      * split; [discriminate|].
        intros H. inversion H as [|? y' ? k'' Hy Hk]; subst.
        apply IH in Hk. discriminate.
    + split; [discriminate|].
      intros H. inversion H; subst. congruence.
Qed.

Lemma div_lt_iff (a b c : Q) : (0 < b)%Q -> (a / b < c <-> a < c * b)%Q.
Proof.
  intros Hb. rewrite <- (Qmult_lt_r (a / b) c b Hb).
  assert (E : (a / b * b == a)%Q) by (field; lra).
  now rewrite E.
Qed.

Lemma div_le_iff (a b c : Q) : (0 < b)%Q -> (a / b <= c <-> a <= c * b)%Q.
Proof.
  intros Hb. rewrite <- (Qmult_le_r (a / b) c b Hb).
  assert (E : (a / b * b == a)%Q) by (field; lra).
  now rewrite E.
Qed.


(** C8.  For an axis of original size at least 1 and a shrink factor greater
    than 1, the new size is at most the original size; it is strictly smaller
    when the shrink factor is at least 2 and the original size exceeds 1. *)
Theorem new_size_axis_shrinks (sz : Z) (sf : Q) :
  1 <= sz -> (1 < sf)%Q ->
  exists n,
    new_size_axis sz sf = Return n /\ n <= sz /\
    ((2 <= sf)%Q -> 1 < sz -> n < sz).
Proof.
  intros Hsz Hsf. assert (Hpos : (0 < sf)%Q) by lra.
  exists (Qfloor (inject_Z sz / sf + (1 # 2))).
  split; [apply new_size_axis_floor; [lia|assumption]|].
  pose proof (Qfloor_le (inject_Z sz / sf + (1 # 2))) as Hfl.
  set (n := Qfloor (inject_Z sz / sf + (1 # 2))) in *.
  assert (Hone : (1 <= inject_Z sz)%Q)
    by (change 1%Q with (inject_Z 1); now rewrite <- Zle_Qle).
  split.
  - assert (Hq : (inject_Z sz / sf < inject_Z sz)%Q)
      by (apply div_lt_iff; [assumption|nra]).
    assert (H1 : (inject_Z n < inject_Z (sz + 1))%Q)
      by (rewrite inject_Z_plus; change (inject_Z 1) with 1%Q; lra).
    rewrite <- Zlt_Qlt in H1. lia.
  - intros Htwo Hgt.
    assert (Hq : (inject_Z sz / sf <= inject_Z sz * (1 # 2))%Q)
      by (apply div_le_iff; [assumption|nra]).
    assert (Hsz2 : (inject_Z 2 <= inject_Z sz)%Q)
      by (rewrite <- Zle_Qle; lia).
    change (inject_Z 2) with 2%Q in Hsz2.
    assert (H1 : (inject_Z n < inject_Z sz)%Q) by lra.
    now rewrite <- Zlt_Qlt in H1.
Qed.

(** *** Running computations of the [Py] monad *)

Lemma run_bind {A B} (c : Py A) (f : A -> Py B) (rt : Runtime Filter) :
  (c ≫= f) rt =
  match c rt with
  | (Return a, rt') => f a rt'
  | (Raise e, rt') => (Raise e, rt')
  end.
Proof. reflexivity. Qed.

Lemma run_ret {A} (a : A) (rt : Runtime Filter) : (mret a : Py A) rt = (Return a, rt).
Proof. reflexivity. Qed.

Lemma deref_run (rt : Runtime Filter) (h : handle) (img : Image) :
  heap rt !! h = Some img -> deref h rt = (Return img, rt).
Proof. intros E. unfold deref. now rewrite E. Qed.

Ltac run_getter E :=
  rewrite run_bind, (deref_run _ _ _ E); reflexivity.

Lemma GetSize_run rt h img :
  heap rt !! h = Some img -> GetSize h rt = (Return (img_size img), rt).
Proof. intros E. unfold GetSize. run_getter E. Qed.

Lemma GetSpacing_run rt h img :
  heap rt !! h = Some img -> GetSpacing h rt = (Return (img_spacing img), rt).
Proof. intros E. unfold GetSpacing. run_getter E. Qed.

Lemma GetOrigin_run rt h img :
  heap rt !! h = Some img -> GetOrigin h rt = (Return (img_origin img), rt).
Proof. intros E. unfold GetOrigin. run_getter E. Qed.

Lemma GetDirection_run rt h img :
  heap rt !! h = Some img ->
  GetDirection h rt = (Return (img_direction img), rt).
Proof. intros E. unfold GetDirection. run_getter E. Qed.

Lemma GetPixelID_run rt h img :
  heap rt !! h = Some img -> GetPixelID h rt = (Return (img_pixel_id img), rt).
Proof. intros E. unfold GetPixelID. run_getter E. Qed.

Lemma GetWidth_run rt h img :
  heap rt !! h = Some img ->
  GetWidth h rt = (Return (nth 0 (img_size img) 0), rt).
Proof. intros E. unfold GetWidth. run_getter E. Qed.

Lemma GetHeight_run rt h img :
  heap rt !! h = Some img ->
  GetHeight h rt = (Return (nth 1 (img_size img) 0), rt).
Proof. intros E. unfold GetHeight. run_getter E. Qed.

Lemma GetDepth_run rt h img :
  heap rt !! h = Some img ->
  GetDepth h rt = (Return (nth 2 (img_size img) 0), rt).
Proof. intros E. unfold GetDepth. run_getter E. Qed.

Lemma SmoothingRecursiveGaussian_run rt image img sigma :
  heap rt !! image = Some img ->
  SmoothingRecursiveGaussian image sigma rt =
  (Return (length (heap rt)),
   mkRuntime (heap rt ++ [smoothed img sigma]) (registration_algorithm rt)
     (calls rt ++
      [CallSmoothingRecursiveGaussian image sigma (length (heap rt))])).
Proof.
  intros E. unfold SmoothingRecursiveGaussian.
  rewrite run_bind, (deref_run _ _ _ E). reflexivity.
Qed.

Lemma Resample_run rt image img size origin spacing direction pixelID :
  heap rt !! image = Some img ->
  Resample image size origin spacing direction pixelID rt =
  (Return (length (heap rt)),
   mkRuntime
     (heap rt ++ [resampled img size origin spacing direction pixelID])
     (registration_algorithm rt)
     (calls rt ++
      [CallResample image size origin spacing direction (length (heap rt))])).
Proof.
  intros E. unfold Resample.
  rewrite run_bind, (deref_run _ _ _ E). reflexivity.
Qed.

(** [smooth_and_resample] smooths first; it then either raises what the size
    and spacing formulas raise, or resamples and returns the new level. *)
Lemma smooth_and_resample_run rt image img shrink_factor smoothing_sigma :
  heap rt !! image = Some img ->
  smooth_and_resample image shrink_factor smoothing_sigma rt =
  let n := length (heap rt) in
  let smoothing := CallSmoothingRecursiveGaussian image smoothing_sigma n in
  match level_image img shrink_factor smoothing_sigma with
  | Return lvl =>
      (Return (S n),
       mkRuntime (heap rt ++ [smoothed img smoothing_sigma; lvl])
         (registration_algorithm rt)
         (calls rt ++
          [smoothing;
           CallResample n (img_size lvl) (img_origin lvl) (img_spacing lvl)
                        (img_direction lvl) (S n)]))
  | Raise e =>
      (Raise e,
       mkRuntime (heap rt ++ [smoothed img smoothing_sigma])
         (registration_algorithm rt) (calls rt ++ [smoothing]))
  end.
Proof.
  intros E. unfold smooth_and_resample, level_image.
  rewrite run_bind, (SmoothingRecursiveGaussian_run _ _ _ _ E).
  set (rt1 := mkRuntime _ _ _).
  assert (E1 : heap rt1 !! image = Some img)
    by (apply lookup_app_l_Some; exact E).
  rewrite run_bind, (GetSpacing_run _ _ _ E1).
  rewrite run_bind, (GetSize_run _ _ _ E1).
  rewrite run_bind. unfold lift at 1.
  destruct (new_size (img_size img) shrink_factor) as [sizes|e]; [|reflexivity].
  rewrite run_bind. unfold lift at 1. cbn [mbind Result_bind].
  destruct (new_spacing (img_size img) (img_spacing img) sizes)
    as [spacings|e]; [|reflexivity].
  rewrite run_bind, (GetOrigin_run _ _ _ E1).
  rewrite run_bind, (GetDirection_run _ _ _ E1).
  rewrite run_bind, (GetPixelID_run _ _ _ E1).
  assert (E2 : heap rt1 !! length (heap rt) = Some (smoothed img smoothing_sigma)).
  { unfold rt1; cbn [heap]. rewrite lookup_app_r by lia.
    now rewrite Nat.sub_diag. }
  rewrite (Resample_run _ _ _ _ _ _ _ _ E2).
  unfold rt1; cbn [heap registration_algorithm calls mbind Result_bind mret Result_ret].
  rewrite length_app; cbn [length]. rewrite Nat.add_1_r.
  rewrite <- !app_assoc. reflexivity.
Qed.

(** *** The spacing formula *)

Lemma mapM_Raise {A B} (f : A -> Result B) (l : list A) (e : PyExn) :
  (forall x e', f x = Raise e' -> e' = e) ->
  (exists x, x ∈ l /\ f x = Raise e) ->
  mapM f l = Raise e.
Proof.
  intros Honly [x [Hin Hx]].
  induction l as [|y l IH]; [inversion Hin|]. cbn.
  destruct (f y) as [b|e'] eqn:Ey; cbn.
  - apply elem_of_cons in Hin as [->|Hin]; [congruence|].
    now rewrite (IH Hin).
  - now rewrite (Honly _ _ Ey).
Qed.

Lemma new_spacing_axis_raises (a : Z * Q * Z) (e : PyExn) :
  new_spacing_axis a = Raise e -> e = ZeroDivisionError.
Proof.
  destruct a as [[osz ospc] n]. unfold new_spacing_axis, float_div.
  destruct (Qeq_bool _ _); congruence.
Qed.

Lemma new_spacing_axis_one (osz : Z) (ospc : Q) :
  new_spacing_axis (osz, ospc, 1) = Raise ZeroDivisionError.
Proof. reflexivity. Qed.

Lemma new_spacing_axis_Return (osz : Z) (ospc : Q) (n : Z) :
  n <> 1 ->
  new_spacing_axis (osz, ospc, n) =
  Return (inject_Z (osz - 1) * ospc / inject_Z (n - 1))%Q.
Proof.
  intros Hn. unfold new_spacing_axis. apply float_div_Return.
  change 0%Q with (inject_Z 0). rewrite inject_Z_injective. lia.
Qed.

Lemma zip3_lookup {A B C} (l1 : list A) (l2 : list B) (l3 : list C)
    (i : nat) (a : A) (b : B) (c : C) :
  l1 !! i = Some a -> l2 !! i = Some b -> l3 !! i = Some c ->
  zip3 l1 l2 l3 !! i = Some (a, b, c).
Proof.
  revert l2 l3 i.
  induction l1 as [|x l1 IH]; intros [|y l2] [|z l3] [|i]; cbn;
    try discriminate.
  - now intros [= ->] [= ->] [= ->].
  - apply IH.
Qed.

(** An axis whose new size is 1 makes the spacing formula divide by zero. *)
Lemma new_spacing_collapse (size : list Z) (spacing : list Q) (sizes : list Z)
    (i : nat) (osz : Z) (ospc : Q) :
  size !! i = Some osz -> spacing !! i = Some ospc -> sizes !! i = Some 1 ->
  new_spacing size spacing sizes = Raise ZeroDivisionError.
Proof.
  intros H1 H2 H3. unfold new_spacing.
  apply mapM_Raise; [apply new_spacing_axis_raises|].
  exists (osz, ospc, 1). split; [|apply new_spacing_axis_one].
  apply list_elem_of_lookup. exists i. now apply zip3_lookup.
Qed.

(** Away from it the formula returns, and keeps the physical extent. *)
Lemma new_spacing_extent (size : list Z) (spacing : list Q) (sizes : list Z) :
  length sizes = length size -> Forall (fun n => n <> 1) sizes ->
  exists spacings,
    new_spacing size spacing sizes = Return spacings /\
    Forall2 Qeq
      (zip_with (fun sz spc => (inject_Z (sz - 1) * spc)%Q) sizes spacings)
      (zip_with (fun sz spc => (inject_Z (sz - 1) * spc)%Q) size spacing).
Proof.
  unfold new_spacing. revert spacing sizes.
  induction size as [|osz size IH]; intros spacing [|n sizes] Hlen Hne;
    try discriminate.
  - exists []. split; [reflexivity|constructor].
  - destruct spacing as [|ospc spacing].
    + exists []. split; [reflexivity|constructor].
    + inversion Hne as [|? ? Hn Hne']; subst.
      destruct (IH spacing sizes) as [sps [Hsps Hext]];
        [cbn in Hlen; lia|assumption|].
      exists ((inject_Z (osz - 1) * ospc / inject_Z (n - 1))%Q :: sps).
      split.
      * cbn [zip3 mapM]. rewrite new_spacing_axis_Return by assumption.
        cbn [mbind Result_bind]. fold (mapM new_spacing_axis).
        now rewrite Hsps.
      * cbn [zip_with]. constructor; [|exact Hext].
        field. change 0%Q with (inject_Z 0).
        rewrite inject_Z_injective. lia.
Qed.

Lemma new_size_length (size sizes : list Z) (sf : Q) :
  new_size size sf = Return sizes -> length sizes = length size.
Proof.
  intros H. apply mapM_Return in H. symmetry. exact (Forall2_length _ _ _ H).
Qed.

(** *** Levels *)

Lemma new_size_Return (size : list Z) (sf : Q) :
  ~ (sf == 0)%Q ->
  new_size size sf =
  Return (map (fun sz => int (inject_Z sz / sf + (1 # 2))%Q) size).
Proof.
  intros Hsf. apply mapM_Return.
  induction size as [|sz size IH]; cbn; constructor; [|exact IH].
  unfold new_size_axis. now rewrite float_div_Return.
Qed.

Lemma level_image_sizes (img : Image) (sf ss : Q) (sizes : list Z) :
  new_size (img_size img) sf = Return sizes ->
  Forall (fun n => n <> 1) sizes ->
  exists lvl,
    level_image img sf ss = Return lvl /\
    img_size lvl = sizes /\
    img_origin lvl = img_origin img /\
    img_direction lvl = img_direction img /\
    Forall2 Qeq (physical_extent lvl) (physical_extent img).
Proof.
  intros Hns Hne. unfold level_image.
  destruct (new_spacing_extent (img_size img) (img_spacing img) sizes)
    as [sps [Hsps Hext]];
    [now apply new_size_length with sf|assumption|].
  rewrite Hns; cbn [mbind Result_bind]. rewrite Hsps; cbn [mbind Result_bind].
  eexists. split; [reflexivity|]. cbn. repeat split; try reflexivity.
  exact Hext.
Qed.

Lemma level_image_Return (img : Image) (sf ss : Q) :
  ~ (sf == 0)%Q -> ~ collapses img sf ->
  exists lvl, level_image img sf ss = Return lvl.
Proof.
  intros Hsf Hnc.
  pose proof (new_size_Return (img_size img) sf Hsf) as Hns.
  set (sizes := map _ _) in Hns.
  assert (Hne : Forall (fun n => n <> 1) sizes).
  { apply Forall_forall. intros n Hin Hn. apply Hnc.
    apply mapM_Return in Hns.
    apply list_elem_of_lookup in Hin as [i Hi].
    destruct (Forall2_lookup_r _ _ _ _ _ Hns Hi) as [sz [Hsz Hax]].
    exists sz. split; [now apply list_elem_of_lookup_2 in Hsz|congruence]. }
  destruct (level_image_sizes img sf ss sizes Hns Hne) as [lvl [Hl _]].
  now exists lvl.
Qed.

Lemma not_collapses_by_sizes (img : Image) (sf : Q) (sizes : list Z) :
  new_size (img_size img) sf = Return sizes ->
  Forall (fun n => n <> 1) sizes -> ~ collapses img sf.
Proof.
  intros Hns Hne (sz & Hin & Hone).
  apply mapM_Return in Hns.
  apply list_elem_of_lookup in Hin as [i Hi].
  destruct (Forall2_lookup_l _ _ _ _ _ Hns Hi) as (n & Hn & Hax).
  assert (n = 1) by congruence. subst n.
  rewrite Forall_forall in Hne. apply (Hne 1); [|reflexivity].
  now apply list_elem_of_lookup_2 in Hn.
Qed.

(** *** The pyramid loop *)

Lemma pyramid_calls_app fixed moving cs1 cs2 :
  pyramid_calls fixed moving cs1 -> pyramid_calls fixed moving cs2 ->
  pyramid_calls fixed moving (cs1 ++ cs2).
Proof.
  induction 1; cbn; [trivial|]. intros H2. constructor; auto.
Qed.

Lemma first_item_run {A} (x : A) (l : list A) (rt : Runtime Filter) :
  first_item (x :: l) rt = (Return x, rt).
Proof. reflexivity. Qed.

Lemma pyramid_step_run rt fixed moving fimg mimg fs ms sf ss flvl mlvl :
  heap rt !! fixed = Some fimg -> heap rt !! moving = Some mimg ->
  level_image fimg sf ss = Return flvl ->
  level_image mimg sf ss = Return mlvl ->
  let n := length (heap rt) in
  pyramid_step (fixed :: fs, moving :: ms) (sf, ss) rt =
  (Return (fixed :: fs ++ [S n], moving :: ms ++ [S (S (S n))]),
   mkRuntime
     (heap rt ++ [smoothed fimg ss; flvl; smoothed mimg ss; mlvl])
     (registration_algorithm rt)
     (calls rt ++
      [CallSmoothingRecursiveGaussian fixed ss n;
       CallResample n (img_size flvl) (img_origin flvl) (img_spacing flvl)
                    (img_direction flvl) (S n);
       CallSmoothingRecursiveGaussian moving ss (S (S n));
       CallResample (S (S n)) (img_size mlvl) (img_origin mlvl)
                    (img_spacing mlvl) (img_direction mlvl) (S (S (S n)))])).
Proof.
  intros Ef Em Hf Hm n. unfold pyramid_step.
  rewrite run_bind, first_item_run.
  rewrite run_bind, (smooth_and_resample_run _ _ _ _ _ Ef), Hf.
  cbv beta iota zeta. rewrite run_bind, first_item_run.
  set (rt1 := mkRuntime _ _ _).
  assert (Em1 : heap rt1 !! moving = Some mimg)
    by (apply lookup_app_l_Some; exact Em).
  rewrite run_bind, (smooth_and_resample_run _ _ _ _ _ Em1), Hm.
  cbv beta iota zeta. unfold rt1; cbn [heap registration_algorithm calls].
  rewrite length_app; cbn [length]. fold n.
  replace (n + 2)%nat with (S (S n)) by lia.
  rewrite <- !app_assoc. reflexivity.
Qed.

Lemma holds_level_mono rt rt' base h d :
  (exists ext, heap rt' = heap rt ++ ext) ->
  holds_level rt base h d -> holds_level rt' base h d.
Proof.
  intros [ext Hext] [lvl [Hl Hh]]. exists lvl. split; [assumption|].
  rewrite Hext. now apply lookup_app_l_Some.
Qed.

Lemma pyramid_loop_run fixed moving fimg mimg (ds : list (Q * Q)) :
  forall fs ms rt,
    heap rt !! fixed = Some fimg -> heap rt !! moving = Some mimg ->
    Forall (fun d => (exists l, level_image fimg d.1 d.2 = Return l) /\
                     (exists l, level_image mimg d.1 d.2 = Return l)) ds ->
    exists fls mls rt',
      for_loop ds pyramid_step (fixed :: fs, moving :: ms) rt =
        (Return (fixed :: fs ++ fls, moving :: ms ++ mls), rt') /\
      Forall2 (holds_level rt' fimg) fls ds /\
      Forall2 (holds_level rt' mimg) mls ds /\
      (exists ext, heap rt' = heap rt ++ ext) /\
      registration_algorithm rt' = registration_algorithm rt /\
      (exists cs, calls rt' = calls rt ++ cs /\ pyramid_calls fixed moving cs).
Proof.
  induction ds as [|[sf ss] ds IH]; intros fs ms rt Ef Em Hall.
  - exists [], [], rt. rewrite !app_nil_r.
    repeat split; try constructor.
    + exists []. now rewrite app_nil_r.
    + exists []. rewrite app_nil_r. split; [reflexivity|constructor].
  - inversion Hall as [|? ? [[flvl Hf] [mlvl Hm]] Hall']; subst.
    cbn [fst snd] in Hf, Hm.
    cbn [for_loop]. rewrite run_bind.
    rewrite (pyramid_step_run _ _ _ _ _ _ _ _ _ _ _ Ef Em Hf Hm).
    cbv beta iota zeta. set (n := length (heap rt)). set (rt1 := mkRuntime _ _ _).
    assert (Ef1 : heap rt1 !! fixed = Some fimg)
      by (apply lookup_app_l_Some; exact Ef).
    assert (Em1 : heap rt1 !! moving = Some mimg)
      by (apply lookup_app_l_Some; exact Em).
    destruct (IH (fs ++ [S n]) (ms ++ [S (S (S n))]) rt1 Ef1 Em1 Hall')
      as (fls & mls & rt' & Hrun & Hfl & Hml & [ext Hext] & Halg & cs & Hcs & Hpc).
    exists (S n :: fls), (S (S (S n)) :: mls), rt'.
    rewrite <- !app_assoc in Hrun. cbn [app] in Hrun.
    split; [exact Hrun|].
    assert (Hmono : exists ext', heap rt' = heap rt1 ++ ext') by eauto.
    split; [|split; [|split; [|split]]].
    + constructor; [|exact Hfl].
      apply (holds_level_mono rt1); [exact Hmono|].
      exists flvl. split; [exact Hf|].
      unfold rt1; cbn [heap]. rewrite lookup_app_r by (fold n; lia).
      fold n. now replace (S n - n)%nat with 1%nat by lia.
    + constructor; [|exact Hml].
      apply (holds_level_mono rt1); [exact Hmono|].
      exists mlvl. split; [exact Hm|].
      unfold rt1; cbn [heap]. rewrite lookup_app_r by (fold n; lia).
      fold n. now replace (S (S (S n)) - n)%nat with 3%nat by lia.
    + rewrite Hext. unfold rt1; cbn [heap]. rewrite <- app_assoc. eauto.
    + rewrite Halg. reflexivity.
    + rewrite Hcs. unfold rt1; cbn [calls]. rewrite <- app_assoc.
      eexists. split; [reflexivity|].
      cbn [app]. constructor; [now left|]. constructor; [now right|exact Hpc].
Qed.

(** *** Frame rules: which heap cells a computation can change *)

Lemma frames_ret {A} n0 (a : A) (post : A -> Prop) :
  post a -> frames n0 (mret a) post.
Proof. intros Ha rt Hn. cbn. repeat split; try assumption. now intros ? [= <-]. Qed.

Lemma frames_lift {A} n0 (r : Result A) : frames n0 (lift r) (fun _ => True).
Proof. intros rt Hn. cbn. auto. Qed.

Lemma frames_weaken {A} n0 (c : Py A) (P P' : A -> Prop) :
  frames n0 c P -> (forall a, P a -> P' a) -> frames n0 c P'.
Proof.
  intros Hc Himp rt Hn. destruct (Hc rt Hn) as (H1 & H2 & H3). auto.
Qed.

Lemma frames_bind {A B} n0 (c : Py A) (f : A -> Py B) P P' :
  frames n0 c P -> (forall a, P a -> frames n0 (f a) P') ->
  frames n0 (c ≫= f) P'.
Proof.
  intros Hc Hf rt Hn. rewrite run_bind.
  destruct (Hc rt Hn) as (H1 & H2 & H3).
  destruct (c rt) as [[a|e] rt1]; cbn [fst snd] in *.
  - destruct (Hf a (H3 a eq_refl) rt1 H1) as (H4 & H5 & H6).
    repeat split; [assumption|congruence|assumption].
  - repeat split; [assumption|assumption|discriminate].
Qed.

Lemma frames_deref n0 h : frames n0 (deref h) (fun _ => True).
Proof.
  intros rt Hn. unfold deref. destruct (heap rt !! h); cbn; auto.
Qed.

Lemma frames_alloc n0 img : frames n0 (alloc img) (fun h => (n0 <= h)%nat).
Proof.
  intros rt Hn. cbn. rewrite length_app. repeat split.
  - lia.
  - now rewrite take_app_le.
  - intros a [= <-]. assumption.
Qed.

Lemma frames_assign n0 h img :
  (n0 <= h)%nat -> frames n0 (assign h img) (fun _ => True).
Proof.
  intros Hh rt Hn. cbn. rewrite length_insert. repeat split.
  - assumption.
  - now apply take_insert_ge.
Qed.

Lemma frames_record_call n0 c : frames n0 (record_call c) (fun _ => True).
Proof. intros rt Hn. cbn. auto. Qed.

Lemma frames_for_loop {A S} n0 (items : list A) (body : S -> A -> Py S)
    (inv : S -> Prop) :
  (forall s x, inv s -> frames n0 (body s x) inv) ->
  forall s, inv s -> frames n0 (for_loop items body s) inv.
Proof.
  intros Hbody. induction items as [|x items IH]; intros s Hs; cbn [for_loop].
  - now apply frames_ret.
  - eapply frames_bind; [now apply Hbody|]. intros s' Hs'. now apply IH.
Qed.

Lemma frames_run_filter n0 f m d : frames n0 (run_filter f m d) (fun _ => True).
Proof.
  intros rt Hn. unfold run_filter.
  destruct (filter_execute _ f m d) as [alg result]. cbn. auto.
Qed.

Lemma frames_first_item {A} n0 (l : list A) :
  frames n0 (first_item l) (fun _ => True).
Proof.
  unfold first_item. destruct (head l); [now apply frames_ret|apply frames_lift].
Qed.

Lemma frames_last_item {A} n0 (l : list A) :
  frames n0 (last_item l) (fun _ => True).
Proof.
  unfold last_item. destruct (last l); [now apply frames_ret|apply frames_lift].
Qed.

(** A method that reads one image and returns a value. *)
Ltac frames_reader :=
  eapply frames_bind; [apply frames_deref|];
  intros ? _; now apply frames_ret.

Lemma frames_GetSize n0 h : frames n0 (GetSize h) (fun _ => True).
Proof. unfold GetSize. frames_reader. Qed.
Lemma frames_GetSpacing n0 h : frames n0 (GetSpacing h) (fun _ => True).
Proof. unfold GetSpacing. frames_reader. Qed.
Lemma frames_GetOrigin n0 h : frames n0 (GetOrigin h) (fun _ => True).
Proof. unfold GetOrigin. frames_reader. Qed.
Lemma frames_GetDirection n0 h : frames n0 (GetDirection h) (fun _ => True).
Proof. unfold GetDirection. frames_reader. Qed.
Lemma frames_GetPixelID n0 h : frames n0 (GetPixelID h) (fun _ => True).
Proof. unfold GetPixelID. frames_reader. Qed.
Lemma frames_GetWidth n0 h : frames n0 (GetWidth h) (fun _ => True).
Proof. unfold GetWidth. frames_reader. Qed.
Lemma frames_GetHeight n0 h : frames n0 (GetHeight h) (fun _ => True).
Proof. unfold GetHeight. frames_reader. Qed.
Lemma frames_GetDepth n0 h : frames n0 (GetDepth h) (fun _ => True).
Proof. unfold GetDepth. frames_reader. Qed.

(** A procedure that allocates its result, records the call and returns the
    new handle. *)
Ltac frames_allocator :=
  repeat (eapply frames_bind;
          [first [apply frames_deref | apply frames_run_filter]|]; intros ? _);
  eapply frames_bind; [apply frames_alloc|]; intros out Hout;
  eapply frames_bind; [apply frames_record_call|]; intros ? _;
  now apply frames_ret.

Lemma frames_SmoothingRecursiveGaussian n0 image sigma :
  frames n0 (SmoothingRecursiveGaussian image sigma) (fun h => (n0 <= h)%nat).
Proof. unfold SmoothingRecursiveGaussian. frames_allocator. Qed.

Lemma frames_Resample n0 image size origin spacing direction pixelID :
  frames n0 (Resample image size origin spacing direction pixelID)
         (fun h => (n0 <= h)%nat).
Proof. unfold Resample. frames_allocator. Qed.

Lemma frames_ResampleLike n0 image reference :
  frames n0 (ResampleLike image reference) (fun h => (n0 <= h)%nat).
Proof. unfold ResampleLike. frames_allocator. Qed.

Lemma frames_TransformToDisplacementField n0 t pixelID size origin spacing
    direction :
  frames n0 (TransformToDisplacementField t pixelID size origin spacing direction)
         (fun h => (n0 <= h)%nat).
Proof. unfold TransformToDisplacementField. frames_allocator. Qed.

Lemma frames_NewImage n0 width height depth pixelID :
  frames n0 (NewImage width height depth pixelID) (fun h => (n0 <= h)%nat).
Proof. unfold NewImage. frames_allocator. Qed.

Lemma frames_Execute n0 fixed moving field :
  frames n0 (Execute fixed moving field) (fun h => (n0 <= h)%nat).
Proof. unfold Execute. frames_allocator. Qed.

Lemma frames_CopyInformation n0 self source :
  (n0 <= self)%nat -> frames n0 (CopyInformation self source) (fun _ => True).
Proof.
  intros Hself. unfold CopyInformation.
  eapply frames_bind; [apply frames_deref|]; intros dst _.
  eapply frames_bind; [apply frames_deref|]; intros src _.
  eapply frames_bind; [apply frames_record_call|]; intros ? _.
  destruct (same_size _ _); [now apply frames_assign|apply frames_lift].
Qed.

Lemma frames_DisplacementFieldTransform n0 field :
  (n0 <= field)%nat ->
  frames n0 (DisplacementFieldTransform field) (fun _ => True).
Proof.
  intros Hfield. unfold DisplacementFieldTransform.
  eapply frames_bind; [apply frames_deref|]; intros d _.
  eapply frames_bind; [now apply frames_assign|]; intros ? _.
  eapply frames_bind; [apply frames_record_call|]; intros ? _.
  now apply frames_ret.
Qed.

Lemma frames_smooth_and_resample n0 image sf ss :
  frames n0 (smooth_and_resample image sf ss) (fun h => (n0 <= h)%nat).
Proof.
  unfold smooth_and_resample.
  eapply frames_bind; [apply frames_SmoothingRecursiveGaussian|]; intros ? _.
  eapply frames_bind; [apply frames_GetSpacing|]; intros ? _.
  eapply frames_bind; [apply frames_GetSize|]; intros ? _.
  eapply frames_bind; [apply frames_lift|]; intros ? _.
  eapply frames_bind; [apply frames_lift|]; intros ? _.
  eapply frames_bind; [apply frames_GetOrigin|]; intros ? _.
  eapply frames_bind; [apply frames_GetDirection|]; intros ? _.
  eapply frames_bind; [apply frames_GetPixelID|]; intros ? _.
  apply frames_Resample.
Qed.

Lemma frames_create_image_pyramid n0 fixed moving sfs sss :
  frames n0 (create_image_pyramid fixed moving sfs sss) (fun _ => True).
Proof.
  unfold create_image_pyramid.
  destruct (truthy sfs); [|now apply frames_ret].
  eapply frames_bind with (P := fun _ => True).
  - unfold zip_descriptors.
    destruct sfs, sss; first [now apply frames_ret | apply frames_lift].
  - intros ds _. apply frames_for_loop; [|trivial].
    intros [fs ms] [sf ss] _. unfold pyramid_step.
    eapply frames_bind; [apply frames_first_item|]; intros ? _.
    eapply frames_bind; [apply frames_smooth_and_resample|]; intros ? _.
    eapply frames_bind; [apply frames_first_item|]; intros ? _.
    eapply frames_bind; [apply frames_smooth_and_resample|]; intros ? _.
    now apply frames_ret.
Qed.

Lemma frames_create_initial_displacement_field n0 t fixed_images :
  frames n0 (create_initial_displacement_field t fixed_images)
         (fun _ => True).
Proof.
  unfold create_initial_displacement_field. destruct t as [t|].
  - eapply frames_bind; [apply frames_last_item|]; intros ? _.
    eapply frames_bind; [apply frames_GetSize|]; intros ? _.
    eapply frames_bind; [apply frames_last_item|]; intros ? _.
    eapply frames_bind; [apply frames_GetOrigin|]; intros ? _.
    eapply frames_bind; [apply frames_last_item|]; intros ? _.
    eapply frames_bind; [apply frames_GetSpacing|]; intros ? _.
    eapply frames_bind; [apply frames_last_item|]; intros ? _.
    eapply frames_bind; [apply frames_GetDirection|]; intros ? _.
    eapply frames_weaken; [apply frames_TransformToDisplacementField|trivial].
  - eapply frames_bind; [apply frames_last_item|]; intros ? _.
    eapply frames_bind; [apply frames_GetWidth|]; intros ? _.
    eapply frames_bind; [apply frames_last_item|]; intros ? _.
    eapply frames_bind; [apply frames_GetHeight|]; intros ? _.
    eapply frames_bind; [apply frames_last_item|]; intros ? _.
    eapply frames_bind; [apply frames_GetDepth|]; intros ? _.
    eapply frames_bind; [apply frames_NewImage|]; intros field Hfield.
    eapply frames_bind; [apply frames_last_item|]; intros ? _.
    eapply frames_bind; [now apply frames_CopyInformation|]; intros ? _.
    now apply frames_ret.
Qed.

Lemma frames_run_registration n0 fixed_images moving_images field :
  frames n0 (run_registration fixed_images moving_images field)
         (fun _ => True).
Proof.
  unfold run_registration.
  eapply frames_bind; [apply frames_last_item|]; intros ? _.
  eapply frames_bind; [apply frames_last_item|]; intros ? _.
  eapply frames_bind; [apply frames_Execute|]; intros field1 Hfield1.
  eapply frames_bind with (P := fun h => (n0 <= h)%nat).
  - apply frames_for_loop; [|assumption].
    intros fld [f m] _. unfold registration_step.
    eapply frames_bind; [apply frames_ResampleLike|]; intros ? _.
    apply frames_Execute.
  - intros fld Hfld. now apply frames_DisplacementFieldTransform.
Qed.

Lemma frames_multiscale_demons n0 fixed moving t sfs sss :
  frames n0 (multiscale_demons fixed moving t sfs sss) (fun _ => True).
Proof.
  unfold multiscale_demons.
  eapply frames_bind; [apply frames_create_image_pyramid|].
  intros [fixed_images moving_images] _.
  eapply frames_bind; [apply frames_create_initial_displacement_field|].
  intros field _. apply frames_run_registration.
Qed.

(** *** Running the registration *)

Lemma last_item_run {A} (l : list A) (x : A) (rt : Runtime Filter) :
  last l = Some x -> last_item l rt = (Return x, rt).
Proof. intros E. unfold last_item. now rewrite E. Qed.

Lemma ResampleLike_run rt image reference img ref :
  heap rt !! image = Some img -> heap rt !! reference = Some ref ->
  ResampleLike image reference rt =
  (Return (length (heap rt)),
   mkRuntime (heap rt ++ [resampled_like img ref]) (registration_algorithm rt)
     (calls rt ++ [CallResampleLike image reference (length (heap rt))])).
Proof.
  intros E1 E2. unfold ResampleLike.
  rewrite run_bind, (deref_run _ _ _ E1).
  rewrite run_bind, (deref_run _ _ _ E2). reflexivity.
Qed.

Lemma Execute_run rt fixed moving field f m d :
  heap rt !! fixed = Some f -> heap rt !! moving = Some m ->
  heap rt !! field = Some d ->
  Execute fixed moving field rt =
  (Return (length (heap rt)),
   mkRuntime (heap rt ++ [(filter_execute (registration_algorithm rt) f m d).2])
     (filter_execute (registration_algorithm rt) f m d).1
     (calls rt ++ [CallExecute fixed moving field (length (heap rt))])).
Proof.
  intros E1 E2 E3. unfold Execute.
  rewrite run_bind, (deref_run _ _ _ E1).
  rewrite run_bind, (deref_run _ _ _ E2).
  rewrite run_bind, (deref_run _ _ _ E3).
  rewrite run_bind. unfold run_filter.
  destruct (filter_execute (registration_algorithm rt) f m d) as [alg result].
  reflexivity.
Qed.

Lemma DisplacementFieldTransform_run rt field d :
  heap rt !! field = Some d ->
  DisplacementFieldTransform field rt =
  (Return (mkDisplacementFieldTransform d),
   mkRuntime (<[field := default_image]> (heap rt)) (registration_algorithm rt)
     (calls rt ++ [CallDisplacementFieldTransform field])).
Proof.
  intros E. unfold DisplacementFieldTransform.
  rewrite run_bind, (deref_run _ _ _ E). reflexivity.
Qed.

Lemma lookup_snoc_1 {A} (l : list A) (x y : A) : (l ++ [x; y]) !! length l = Some x.
Proof. rewrite lookup_app_r by lia. now rewrite Nat.sub_diag. Qed.

Lemma lookup_snoc_2 {A} (l : list A) (x y : A) :
  (l ++ [x; y]) !! S (length l) = Some y.
Proof.
  rewrite lookup_app_r by lia.
  now replace (S (length l) - length l)%nat with 1%nat by lia.
Qed.

Lemma registration_step_run rt field f_image m_image d f m :
  heap rt !! field = Some d ->
  heap rt !! f_image = Some f -> heap rt !! m_image = Some m ->
  let n := length (heap rt) in
  let r := filter_execute (registration_algorithm rt) f m (resampled_like d f) in
  registration_step field (f_image, m_image) rt =
  (Return (S n),
   mkRuntime (heap rt ++ [resampled_like d f; r.2]) r.1
     (calls rt ++ [CallResampleLike field f_image n;
                   CallExecute f_image m_image n (S n)])).
Proof.
  intros Ed Ef Em n r. unfold registration_step.
  rewrite run_bind, (ResampleLike_run _ _ _ _ _ Ed Ef).
  cbv beta iota zeta. set (rt1 := mkRuntime _ _ _).
  assert (Ef1 : heap rt1 !! f_image = Some f) by (now apply lookup_app_l_Some).
  assert (Em1 : heap rt1 !! m_image = Some m) by (now apply lookup_app_l_Some).
  assert (Ed1 : heap rt1 !! length (heap rt) = Some (resampled_like d f)).
  { unfold rt1; cbn [heap]. rewrite lookup_app_r by lia.
    now rewrite Nat.sub_diag. }
  rewrite (Execute_run _ _ _ _ _ _ _ Ef1 Em1 Ed1).
  unfold rt1; cbn [heap registration_algorithm calls]. fold r.
  rewrite length_app; cbn [length]. fold n. rewrite Nat.add_1_r.
  rewrite <- !app_assoc. reflexivity.
Qed.

Lemma levels_hold_mono rt rt' levels level_images :
  (exists ext, heap rt' = heap rt ++ ext) ->
  levels_hold rt levels level_images -> levels_hold rt' levels level_images.
Proof.
  intros [ext Hext] H. unfold levels_hold in *.
  eapply Forall2_impl; [exact H|]. cbn. intros hs imgs [H1 H2].
  rewrite Hext. split; now apply lookup_app_l_Some.
Qed.

Lemma registration_loop_run levels :
  forall level_images field d rt,
    levels_hold rt levels level_images ->
    heap rt !! field = Some d ->
    let final := final_field levels field (length (heap rt)) in
    let r := refine (registration_algorithm rt) d level_images in
    exists rt',
      for_loop levels registration_step field rt = (Return final, rt') /\
      calls rt' = calls rt ++ loop_calls levels field (length (heap rt)) /\
      (exists ext, heap rt' = heap rt ++ ext) /\
      registration_algorithm rt' = r.1 /\
      heap rt' !! final = Some r.2.
Proof.
  induction levels as [|[f_image m_image] levels IH];
    intros level_images field d rt Hlv Ed.
  - inversion Hlv; subst. exists rt. cbn. rewrite !app_nil_r.
    repeat split; try assumption. exists []. now rewrite app_nil_r.
  - inversion Hlv as [|? [f m] ? level_images' [Ef Em] Hlv']; subst.
    cbn [fst snd] in Ef, Em. cbv zeta.
    cbn [for_loop]. rewrite run_bind.
    rewrite (registration_step_run _ _ _ _ _ _ _ Ed Ef Em).
    cbv beta iota zeta.
    set (n := length (heap rt)).
    set (r1 := filter_execute (registration_algorithm rt) f m (resampled_like d f)).
    set (rt1 := mkRuntime _ _ _).
    assert (Hext1 : exists ext, heap rt1 = heap rt ++ ext) by (unfold rt1; cbn; eauto).
    assert (Ed1 : heap rt1 !! S n = Some r1.2) by apply lookup_snoc_2.
    destruct (IH level_images' (S n) r1.2 rt1 (levels_hold_mono _ _ _ _ Hext1 Hlv') Ed1)
      as (rt' & Hrun & Hcalls & [ext Hext] & Halg & Hfinal).
    assert (Hlen1 : length (heap rt1) = S (S n))
      by (unfold rt1; cbn [heap]; rewrite length_app; cbn; fold n; lia).
    rewrite Hlen1 in Hrun, Hcalls, Hfinal.
    assert (Hfin : final_field levels (S n) (S (S n)) =
                   final_field ((f_image, m_image) :: levels) field n).
    { unfold final_field. destruct levels; cbn [length]; lia. }
    assert (Href : refine (registration_algorithm rt1) r1.2 level_images' =
                   refine (registration_algorithm rt) d ((f, m) :: level_images')).
    { cbn [refine]. fold r1. now destruct r1. }
    exists rt'. rewrite <- Hfin, <- Href.
    split; [exact Hrun|]. split; [|split; [|split; assumption]].
    + rewrite Hcalls. unfold rt1; cbn [calls loop_calls].
      now rewrite <- app_assoc.
    + rewrite Hext. unfold rt1; cbn [heap]. rewrite <- app_assoc. eauto.
Qed.

Lemma final_field_cons f m levels field next :
  final_field levels (S next) (S (S next)) =
  final_field ((f, m) :: levels) field next.
Proof. unfold final_field. destruct levels; cbn [length]; lia. Qed.

Lemma spec_level_calls_loop f m levels field next :
  spec_level_calls ((f, m) :: levels) field next =
  CallExecute f m field next
  :: loop_calls levels next (S next)
  ++ [CallDisplacementFieldTransform (final_field levels next (S next))].
Proof.
  revert f m field next.
  induction levels as [|[f' m'] levels IH]; intros f m field next.
  - reflexivity.
  - change (spec_level_calls ((f, m) :: (f', m') :: levels) field next)
      with (CallExecute f m field next
            :: CallResampleLike next f' (S next)
            :: spec_level_calls ((f', m') :: levels) (S next) (S (S next))).
    rewrite IH. cbn [loop_calls app].
    now rewrite (final_field_cons f' m' levels next (S next)).
Qed.

Lemma executed_levels_loop levels field next :
  executed_levels (loop_calls levels field next) = levels.
Proof.
  revert field next.
  induction levels as [|[f m] levels IH]; intros field next; [reflexivity|].
  cbn. f_equal. apply IH.
Qed.

Lemma executed_levels_spec levels field next :
  executed_levels (spec_level_calls levels field next) = levels.
Proof.
  destruct levels as [|[f m] levels]; [reflexivity|].
  rewrite spec_level_calls_loop. unfold executed_levels.
  cbn [omap list_omap]. f_equal.
  rewrite omap_app. fold (executed_levels (loop_calls levels next (S next))).
  rewrite executed_levels_loop. cbn. apply app_nil_r.
Qed.

Lemma run_registration_run fixed_rest moving_rest f_top m_top field rt
    level_images f m d :
  length fixed_rest = length moving_rest ->
  levels_hold rt (reverse (zip fixed_rest moving_rest)) level_images ->
  heap rt !! f_top = Some f -> heap rt !! m_top = Some m ->
  heap rt !! field = Some d ->
  let levels := (f_top, m_top) :: reverse (zip fixed_rest moving_rest) in
  let r := coarse_to_fine (registration_algorithm rt) d ((f, m) :: level_images) in
  exists rt',
    run_registration (fixed_rest ++ [f_top]) (moving_rest ++ [m_top]) field rt =
      (Return (mkDisplacementFieldTransform r.2), rt') /\
    calls rt' = calls rt ++ spec_level_calls levels field (length (heap rt)) /\
    registration_algorithm rt' = r.1.
Proof.
  intros Hlen Hlv Ef Em Ed levels r. unfold run_registration.
  rewrite run_bind, (last_item_run _ _ _ (last_snoc _ _)). cbv beta iota zeta.
  rewrite run_bind, (last_item_run _ _ _ (last_snoc _ _)). cbv beta iota zeta.
  rewrite run_bind, (Execute_run _ _ _ _ _ _ _ Ef Em Ed). cbv beta iota zeta.
  unfold all_but_last. rewrite !removelast_last.
  set (n := length (heap rt)).
  set (r1 := filter_execute (registration_algorithm rt) f m d).
  set (rt1 := mkRuntime _ _ _).
  assert (Hext1 : exists ext, heap rt1 = heap rt ++ ext) by (unfold rt1; cbn; eauto).
  assert (Ed1 : heap rt1 !! n = Some r1.2).
  { unfold rt1, n; cbn [heap]. rewrite lookup_app_r by lia.
    now rewrite Nat.sub_diag. }
  destruct (registration_loop_run _ _ _ _ _ (levels_hold_mono _ _ _ _ Hext1 Hlv) Ed1)
    as (rt2 & Hrun & Hcalls & _ & Halg & Hfinal).
  assert (Hlen1 : length (heap rt1) = S n)
    by (unfold rt1; cbn [heap]; rewrite length_app; cbn; fold n; lia).
  rewrite Hlen1 in Hrun, Hcalls, Hfinal.
  assert (Href : refine (registration_algorithm rt1) r1.2 level_images = r).
  { unfold r, coarse_to_fine. fold r1. now destruct r1. }
  rewrite Href in Halg, Hfinal.
  rewrite run_bind, Hrun. cbv beta iota zeta.
  rewrite (DisplacementFieldTransform_run _ _ _ Hfinal).
  eexists. split; [reflexivity|]. cbn [calls registration_algorithm].
  split; [|exact Halg].
  rewrite Hcalls. unfold rt1; cbn [calls]. unfold levels.
  rewrite spec_level_calls_loop. rewrite <- !app_assoc. reflexivity.
Qed.

(** *** The initial displacement field *)

Lemma new_vector_image_size (c : Image) (pixelID : PixelIDValue) :
  two_or_three_dimensional c ->
  img_size (new_vector_image (nth 0 (img_size c) 0) (nth 1 (img_size c) 0)
                             (nth 2 (img_size c) 0) pixelID) = img_size c.
Proof.
  intros [(w & h & E)|(w & h & d & E & Hd)]; rewrite E; cbn.
  - reflexivity.
  - destruct (Z.eqb_spec d 0); [contradiction|reflexivity].
Qed.

Lemma CopyInformation_run rt self source dst src :
  heap rt !! self = Some dst -> heap rt !! source = Some src ->
  img_size dst = img_size src ->
  CopyInformation self source rt =
  (Return (),
   mkRuntime
     (<[self := {| img_size := img_size dst;
                   img_spacing := img_spacing src;
                   img_origin := img_origin src;
                   img_direction := img_direction src;
                   img_pixel_id := img_pixel_id dst;
                   img_pixel := img_pixel dst |}]> (heap rt))
     (registration_algorithm rt)
     (calls rt ++ [CallCopyInformation self source])).
Proof.
  intros E1 E2 Hsize. unfold CopyInformation.
  rewrite run_bind, (deref_run _ _ _ E1).
  rewrite run_bind, (deref_run _ _ _ E2).
  rewrite run_bind. cbn [record_call].
  unfold same_size. rewrite bool_decide_eq_true_2 by assumption.
  reflexivity.
Qed.

Lemma zero_field_run fixed_images top c rt :
  last fixed_images = Some top -> heap rt !! top = Some c ->
  two_or_three_dimensional c ->
  let n := length (heap rt) in
  create_initial_displacement_field None fixed_images rt =
  (Return n,
   mkRuntime (heap rt ++ [zero_displacement_field c]) (registration_algorithm rt)
     (calls rt ++
      [CallImage (nth 0 (img_size c) 0) (nth 1 (img_size c) 0)
                 (nth 2 (img_size c) 0) n;
       CallCopyInformation n top])).
Proof.
  intros Hlast Ec Hdim n. unfold create_initial_displacement_field.
  rewrite run_bind, (last_item_run _ _ _ Hlast). cbv beta iota zeta.
  rewrite run_bind, (GetWidth_run _ _ _ Ec). cbv beta iota zeta.
  rewrite run_bind, (last_item_run _ _ _ Hlast). cbv beta iota zeta.
  rewrite run_bind, (GetHeight_run _ _ _ Ec). cbv beta iota zeta.
  rewrite run_bind, (last_item_run _ _ _ Hlast). cbv beta iota zeta.
  rewrite run_bind, (GetDepth_run _ _ _ Ec). cbv beta iota zeta.
  rewrite run_bind. unfold NewImage at 1.
  rewrite run_bind. unfold alloc at 1. cbv beta iota zeta.
  rewrite run_bind. unfold record_call at 1. cbv beta iota zeta.
  rewrite run_ret. cbv beta iota zeta. cbn [heap registration_algorithm calls].
  fold n. set (fresh := new_vector_image _ _ _ _).
  set (rt1 := mkRuntime _ _ _).
  rewrite run_bind, (last_item_run _ _ _ Hlast). cbv beta iota zeta.
  assert (Ec1 : heap rt1 !! top = Some c) by (now apply lookup_app_l_Some).
  assert (En : heap rt1 !! n = Some fresh).
  { unfold rt1, n; cbn [heap]. rewrite lookup_app_r by lia.
    now rewrite Nat.sub_diag. }
  assert (Hsize : img_size fresh = img_size c)
    by (now apply new_vector_image_size).
  assert (Hpix : img_pixel fresh =
                 fun _ => replicate (length (img_size fresh)) 0%Q)
    by reflexivity.
  assert (Hpid : img_pixel_id fresh = sitkVectorFloat64) by reflexivity.
  clearbody fresh.
  rewrite run_bind, (CopyInformation_run _ _ _ _ _ En Ec1 Hsize).
  cbv beta iota zeta. rewrite run_ret.
  unfold rt1; cbn [heap registration_algorithm calls].
  rewrite Hpix, Hpid, Hsize. f_equal. f_equal.
  - unfold n. replace (length (heap rt)) with (length (heap rt) + 0)%nat at 1 by lia.
    rewrite insert_app_r. reflexivity.
  - now rewrite <- app_assoc.
Qed.

Lemma transform_field_run fixed_images top c t rt :
  last fixed_images = Some top -> heap rt !! top = Some c ->
  let n := length (heap rt) in
  create_initial_displacement_field (Some t) fixed_images rt =
  (Return n,
   mkRuntime (heap rt ++ [transform_displacement_field t c])
     (registration_algorithm rt)
     (calls rt ++
      [CallTransformToDisplacementField (img_size c) (img_origin c)
         (img_spacing c) (img_direction c) n])).
Proof.
  intros Hlast Ec n. unfold create_initial_displacement_field.
  rewrite run_bind, (last_item_run _ _ _ Hlast). cbv beta iota zeta.
  rewrite run_bind, (GetSize_run _ _ _ Ec). cbv beta iota zeta.
  rewrite run_bind, (last_item_run _ _ _ Hlast). cbv beta iota zeta.
  rewrite run_bind, (GetOrigin_run _ _ _ Ec). cbv beta iota zeta.
  rewrite run_bind, (last_item_run _ _ _ Hlast). cbv beta iota zeta.
  rewrite run_bind, (GetSpacing_run _ _ _ Ec). cbv beta iota zeta.
  rewrite run_bind, (last_item_run _ _ _ Hlast). cbv beta iota zeta.
  rewrite run_bind, (GetDirection_run _ _ _ Ec). cbv beta iota zeta.
  reflexivity.
Qed.

(** *** The pyramid *)

Lemma create_image_pyramid_run fixed moving fimg mimg sfs sss rt :
  heap rt !! fixed = Some fimg -> heap rt !! moving = Some mimg ->
  Forall (fun d => (exists l, level_image fimg d.1 d.2 = Return l) /\
                   (exists l, level_image mimg d.1 d.2 = Return l))
         (zip sfs sss) ->
  exists fls mls rt',
    create_image_pyramid fixed moving (Some sfs) (Some sss) rt =
      (Return (fixed :: fls, moving :: mls), rt') /\
    Forall2 (holds_level rt' fimg) fls (reverse (zip sfs sss)) /\
    Forall2 (holds_level rt' mimg) mls (reverse (zip sfs sss)) /\
    (exists ext, heap rt' = heap rt ++ ext) /\
    registration_algorithm rt' = registration_algorithm rt /\
    (exists cs, calls rt' = calls rt ++ cs /\ pyramid_calls fixed moving cs).
Proof.
  intros Ef Em Hall. unfold create_image_pyramid.
  destruct sfs as [|sf sfs].
  - exists [], [], rt. cbn. repeat split; try constructor.
    + exists []. now rewrite app_nil_r.
    + exists []. rewrite app_nil_r. split; [reflexivity|constructor].
  - cbn [truthy zip_descriptors]. rewrite run_bind, run_ret.
    apply Forall_reverse in Hall.
    destruct (pyramid_loop_run fixed moving fimg mimg _ [] [] rt Ef Em Hall)
      as (fls & mls & rt' & Hrun & H).
    exists fls, mls, rt'. split; [exact Hrun|exact H].
Qed.

(** ** Properties of the driver *)

Lemma levels_return fimg mimg (descriptors : list (Q * Q)) :
  Forall (fun d => (1 < d.1)%Q /\ ~ collapses fimg d.1 /\ ~ collapses mimg d.1)
         descriptors ->
  Forall (fun d => (exists l, level_image fimg d.1 d.2 = Return l) /\
                   (exists l, level_image mimg d.1 d.2 = Return l))
         descriptors.
Proof.
  intros H. eapply Forall_impl; [exact H|].
  intros [sf ss] (Hsf & Hf & Hm). cbn [fst snd] in *.
  split; apply level_image_Return; trivial; lra.
Qed.

(** C1 (amended).  For a valid descriptor list that collapses no axis of either
    image to one sample, the pyramid holds [len(descriptors) + 1] images; the
    original image is its first element, the very object that was passed in and
    unchanged; read from its last element to its first, the pyramid lists the
    level of the first descriptor, ..., the level of the last descriptor, and
    then the original. *)
Theorem pyramid_original_first fixed moving fimg mimg
    (descriptors : list (Q * Q)) rt :
  heap rt !! fixed = Some fimg -> heap rt !! moving = Some mimg ->
  Forall (fun d => (1 < d.1)%Q /\ ~ collapses fimg d.1 /\ ~ collapses mimg d.1)
         descriptors ->
  exists fixed_images moving_images rt',
    create_image_pyramid fixed moving (Some descriptors.*1)
                         (Some descriptors.*2) rt =
      (Return (fixed_images, moving_images), rt') /\
    length fixed_images = S (length descriptors) /\
    length moving_images = S (length descriptors) /\
    head fixed_images = Some fixed /\
    head moving_images = Some moving /\
    heap rt' !! fixed = Some fimg /\
    heap rt' !! moving = Some mimg /\
    exists fixed_levels moving_levels,
      reverse fixed_images = fixed_levels ++ [fixed] /\
      reverse moving_images = moving_levels ++ [moving] /\
      Forall2 (holds_level rt' fimg) fixed_levels descriptors /\
      Forall2 (holds_level rt' mimg) moving_levels descriptors.
Proof.
  intros Ef Em Hvalid. apply levels_return in Hvalid.
  rewrite <- (zip_fst_snd descriptors) in Hvalid.
  destruct (create_image_pyramid_run _ _ _ _ _ _ rt Ef Em Hvalid)
    as (fls & mls & rt' & Hrun & Hfl & Hml & [ext Hext] & _ & _).
  rewrite zip_fst_snd in Hfl, Hml.
  exists (fixed :: fls), (moving :: mls), rt'.
  split; [exact Hrun|].
  pose proof (Forall2_length _ _ _ Hfl) as Lf.
  pose proof (Forall2_length _ _ _ Hml) as Lm.
  rewrite length_reverse in Lf, Lm.
  repeat split; cbn [length]; try congruence.
  - rewrite Hext. now apply lookup_app_l_Some.
  - rewrite Hext. now apply lookup_app_l_Some.
  - exists (reverse fls), (reverse mls). rewrite !reverse_cons.
    repeat split; try reflexivity.
    + apply Forall2_reverse in Hfl. now rewrite reverse_involutive in Hfl.
    + apply Forall2_reverse in Hml. now rewrite reverse_involutive in Hml.
Qed.

(** C2 (amended).  With no descriptors ([shrink_factors] is [None] or empty)
    and no initial transform, on a two- or three-dimensional fixed image, the
    driver returns
    the transform that wraps what one call
    [Execute(fixed, moving, zero_field)] returns, leaves the filter in the
    state that call leaves it in, and calls [Execute] exactly once, on the two
    input images themselves. *)
Theorem multiscale_demons_single_scale fixed moving f m
    (shrink_factors smoothing_sigmas : option (list Q)) rt :
  heap rt !! fixed = Some f -> heap rt !! moving = Some m ->
  two_or_three_dimensional f ->
  shrink_factors = None \/ shrink_factors = Some [] ->
  let direct :=
    filter_execute (registration_algorithm rt) f m (zero_displacement_field f) in
  let n := length (heap rt) in
  exists rt',
    multiscale_demons fixed moving None shrink_factors smoothing_sigmas rt =
      (Return (mkDisplacementFieldTransform direct.2), rt') /\
    registration_algorithm rt' = direct.1 /\
    calls rt' =
      calls rt ++
      [CallImage (nth 0 (img_size f) 0) (nth 1 (img_size f) 0)
                 (nth 2 (img_size f) 0) n;
       CallCopyInformation n fixed;
       CallExecute fixed moving n (S n);
       CallDisplacementFieldTransform (S n)].
Proof.
  intros Ef Em Hdim Hempty direct n. unfold multiscale_demons.
  assert (Hpyr : create_image_pyramid fixed moving shrink_factors
                   smoothing_sigmas rt = (Return ([fixed], [moving]), rt))
    by (destruct Hempty as [-> | ->]; reflexivity).
  rewrite run_bind, Hpyr. cbv beta iota zeta.
  rewrite run_bind, (zero_field_run [fixed] fixed f rt eq_refl Ef Hdim).
  cbv beta iota zeta. fold n. set (rt1 := mkRuntime _ _ _).
  assert (Ef1 : heap rt1 !! fixed = Some f) by (now apply lookup_app_l_Some).
  assert (Em1 : heap rt1 !! moving = Some m) by (now apply lookup_app_l_Some).
  assert (Ed1 : heap rt1 !! n = Some (zero_displacement_field f)).
  { unfold rt1, n; cbn [heap]. rewrite lookup_app_r by lia.
    now rewrite Nat.sub_diag. }
  destruct (run_registration_run [] [] fixed moving n rt1 [] f m
              (zero_displacement_field f) eq_refl (Forall2_nil_2 _ _ _) Ef1 Em1 Ed1)
    as (rt' & Hrun & Hcalls & Halg).
  assert (Hdirect : coarse_to_fine (registration_algorithm rt1)
                      (zero_displacement_field f) [(f, m)] = direct).
  { unfold direct, rt1; cbn [coarse_to_fine registration_algorithm refine].
    now destruct (filter_execute _ f m _). }
  rewrite Hdirect in Hrun, Halg.
  cbn [app] in Hrun. exists rt'. split; [exact Hrun|]. split; [exact Halg|].
  rewrite Hcalls. unfold rt1; cbn [heap calls].
  rewrite length_app; cbn [length]. fold n. rewrite Nat.add_1_r.
  rewrite <- app_assoc. reflexivity.
Qed.

(** The calls of the registration block on a non-empty pyramid, read from the
    last element of the two lists to the first. *)
Lemma run_registration_calls fixed_images moving_images level_images
    field d rt :
  fixed_images <> [] -> length fixed_images = length moving_images ->
  levels_hold rt (reverse (zip fixed_images moving_images)) level_images ->
  heap rt !! field = Some d ->
  let levels := reverse (zip fixed_images moving_images) in
  let r := coarse_to_fine (registration_algorithm rt) d level_images in
  exists rt',
    run_registration fixed_images moving_images field rt =
      (Return (mkDisplacementFieldTransform r.2), rt') /\
    calls rt' = calls rt ++ spec_level_calls levels field (length (heap rt)) /\
    executed_levels (spec_level_calls levels field (length (heap rt))) = levels /\
    registration_algorithm rt' = r.1.
Proof.
  intros Hne Hlen Hlv Ed levels r.
  destruct (exists_last Hne) as (fixed_rest & f_top & ->).
  destruct moving_images as [|m0 ms] using rev_ind;
    [rewrite length_app in Hlen; cbn in Hlen; lia|].
  clear IHms. rename ms into moving_rest, m0 into m_top.
  rewrite !length_app in Hlen; cbn [length] in Hlen.
  assert (Hlen' : length fixed_rest = length moving_rest) by lia.
  assert (Hzip : reverse (zip (fixed_rest ++ [f_top]) (moving_rest ++ [m_top])) =
                 (f_top, m_top) :: reverse (zip fixed_rest moving_rest)).
  { rewrite zip_with_app by assumption. cbn [zip_with]. apply reverse_snoc. }
  unfold levels, r. rewrite Hzip in Hlv |- *.
  inversion Hlv as [|? [f m] ? level_images' [Ef Em] Hlv']; subst.
  cbn [fst snd] in Ef, Em.
  destruct (run_registration_run _ _ _ _ _ _ _ _ _ _ Hlen' Hlv' Ef Em Ed)
    as (rt' & Hrun & Hcalls & Halg).
  exists rt'. repeat split; try assumption. apply executed_levels_spec.
Qed.

Lemma finest_first_reverse rt (hs : list handle) :
  finest_first rt hs -> coarsest_first rt (reverse hs).
Proof.
  intros Hfinest i h h' a b Hi Hi' Ea Eb.
  apply reverse_lookup_Some in Hi as [Hi Hlt].
  apply reverse_lookup_Some in Hi' as [Hi' Hlt'].
  apply (Hfinest (length hs - S (S i))%nat h' h b a); try assumption.
  now replace (S (length hs - S (S i))) with (length hs - S i)%nat by lia.
Qed.

(** C3 (amended).  On a non-empty pyramid the registration block calls
    [Execute] once per level, from the last element of the pyramid list (its
    top) to the first (the original images).  Between two calls, and only
    there, the field just returned is resampled onto the grid of the next
    level's fixed image; nothing is smoothed.  After the call on the original
    images the field is wrapped as a transform and returned.  The field and the
    filter state are the ones [coarse_to_fine] computes on the image values.
    When the pyramid list runs from finest to coarsest, the calls run from
    coarsest to finest. *)
Theorem registration_top_down fixed_images moving_images level_images
    field d rt :
  fixed_images <> [] -> length fixed_images = length moving_images ->
  levels_hold rt (reverse (zip fixed_images moving_images)) level_images ->
  heap rt !! field = Some d ->
  let levels := reverse (zip fixed_images moving_images) in
  let r := coarse_to_fine (registration_algorithm rt) d level_images in
  exists rt',
    run_registration fixed_images moving_images field rt =
      (Return (mkDisplacementFieldTransform r.2), rt') /\
    calls rt' = calls rt ++ spec_level_calls levels field (length (heap rt)) /\
    executed_levels (spec_level_calls levels field (length (heap rt))) = levels /\
    registration_algorithm rt' = r.1 /\
    (finest_first rt fixed_images -> coarsest_first rt levels.*1).
Proof.
  intros Hne Hlen Hlv Ed levels r.
  destruct (run_registration_calls _ _ _ _ _ _ Hne Hlen Hlv Ed)
    as (rt' & Hrun & Hcalls & Hexec & Halg).
  exists rt'. repeat split; try assumption.
  intros Hfinest. unfold levels.
  rewrite fmap_reverse, fst_zip by lia. now apply finest_first_reverse.
Qed.



(** C5 (amended).  When the new size of some axis is 1, [smooth_and_resample]
    raises the [ZeroDivisionError] of the spacing formula: the Gaussian
    smoothing has already run, no resampling takes place and no level is
    returned. *)
Theorem collapsed_axis_raises_ZeroDivisionError image img
    (shrink_factor smoothing_sigma : Q) (sizes : list Z)
    (axis : nat) (original_sz : Z) (original_spc : Q) rt :
  heap rt !! image = Some img ->
  new_size (img_size img) shrink_factor = Return sizes ->
  img_size img !! axis = Some original_sz ->
  img_spacing img !! axis = Some original_spc ->
  sizes !! axis = Some 1 ->
  smooth_and_resample image shrink_factor smoothing_sigma rt =
  (Raise ZeroDivisionError,
   mkRuntime (heap rt ++ [smoothed img smoothing_sigma])
     (registration_algorithm rt)
     (calls rt ++
      [CallSmoothingRecursiveGaussian image smoothing_sigma (length (heap rt))])).
Proof.
  intros E Hsizes Hsz Hspc Hone.
  rewrite (smooth_and_resample_run _ _ _ _ _ E). cbv zeta.
  unfold level_image. rewrite Hsizes. cbn [mbind Result_bind].
  now rewrite (new_spacing_collapse _ _ _ _ _ _ Hsz Hspc Hone).
Qed.

(** The initial displacement field is a new image on the grid of the last
    element of the fixed pyramid list ([fixed_images[-1]]): same size,
    spacing, origin and direction.  With an initial transform it is that
    transform sampled on this grid; without one, and for a two- or
    three-dimensional last element, every one of its pixels is the zero
    vector. *)
Lemma initial_field_on_top_grid (initial_transform : option Transform)
    fixed_images top c rt :
  last fixed_images = Some top -> heap rt !! top = Some c ->
  (initial_transform = None -> two_or_three_dimensional c) ->
  exists field rt' fld,
    create_initial_displacement_field initial_transform fixed_images rt =
      (Return field, rt') /\
    heap rt' !! field = Some fld /\
    heap rt' !! top = Some c /\
    same_grid fld c /\
    img_pixel_id fld = sitkVectorFloat64 /\
    match initial_transform with
    | Some t => fld = transform_displacement_field t c
    | None => forall idx, img_pixel fld idx = replicate (length (img_size c)) 0%Q
    end.
Proof.
  intros Hlast Ec Hdim. destruct initial_transform as [t|].
  - exists (length (heap rt)). eexists. exists (transform_displacement_field t c).
    split; [apply (transform_field_run _ _ _ _ _ Hlast Ec)|].
    cbn [heap]. split; [|split; [now apply lookup_app_l_Some|]].
    + rewrite lookup_app_r by lia. now rewrite Nat.sub_diag.
    + repeat split.
  - exists (length (heap rt)). eexists. exists (zero_displacement_field c).
    split; [apply (zero_field_run _ _ _ _ Hlast Ec (Hdim eq_refl))|].
    cbn [heap]. split; [|split; [now apply lookup_app_l_Some|]].
    + rewrite lookup_app_r by lia. now rewrite Nat.sub_diag.
    + repeat split.
Qed.


Lemma multiscale_demons_frame fixed moving initial_transform
    shrink_factors smoothing_sigmas rt (h : handle) (img : Image) :
  heap rt !! h = Some img ->
  heap (multiscale_demons fixed moving initial_transform shrink_factors
                          smoothing_sigmas rt).2 !! h = Some img.
Proof.
  intros E.
  destruct (frames_multiscale_demons (length (heap rt)) fixed moving
              initial_transform shrink_factors smoothing_sigmas rt (le_n _))
    as (_ & Htake & _).
  rewrite firstn_all in Htake.
  pose proof (lookup_lt_Some _ _ _ E) as Hlt.
  rewrite <- (lookup_take_lt _ (length (heap rt)) h Hlt), Htake. exact E.
Qed.

(** C9.  Whatever the driver is given and however it ends, every image that
    was in the heap before the call is the same afterwards; in particular the
    two input images are not modified.  When the pyramid is built, each level
    is [level_image] of the value of the base image, and the recorded calls
    show the construction: every smoothing call takes [fixed_image] or
    [moving_image] as its input, never an earlier level, and every resampling
    call takes the image that smoothing call returned. *)
Theorem levels_derive_from_base_images fixed moving fimg mimg
    (initial_transform : option Transform) (descriptors : list (Q * Q)) rt :
  (forall h img,
      heap rt !! h = Some img ->
      heap (multiscale_demons fixed moving initial_transform
              (Some descriptors.*1) (Some descriptors.*2) rt).2 !! h = Some img) /\
  (heap rt !! fixed = Some fimg -> heap rt !! moving = Some mimg ->
   Forall (fun d => (1 < d.1)%Q /\ ~ collapses fimg d.1 /\ ~ collapses mimg d.1)
          descriptors ->
   exists fixed_levels moving_levels rt' cs,
     create_image_pyramid fixed moving (Some descriptors.*1)
                          (Some descriptors.*2) rt =
       (Return (fixed :: fixed_levels, moving :: moving_levels), rt') /\
     Forall2 (holds_level rt' fimg) fixed_levels (reverse descriptors) /\
     Forall2 (holds_level rt' mimg) moving_levels (reverse descriptors) /\
     calls rt' = calls rt ++ cs /\
     pyramid_calls fixed moving cs).
Proof.
  split; [intros h img; apply multiscale_demons_frame|].
  intros Ef Em Hvalid. apply levels_return in Hvalid.
  rewrite <- (zip_fst_snd descriptors) in Hvalid.
  destruct (create_image_pyramid_run _ _ _ _ _ _ rt Ef Em Hvalid)
    as (fls & mls & rt' & Hrun & Hfl & Hml & _ & _ & cs & Hcs & Hpc).
  rewrite zip_fst_snd in Hfl, Hml.
  exists fls, mls, rt', cs. repeat split; assumption.
Qed.




(** ** Further properties *)

(** *** The size formula *)

Lemma quotient_antitone (a b c : Q) :
  (0 <= a)%Q -> (0 < b)%Q -> (b <= c)%Q -> (a / c <= a / b)%Q.
Proof.
  intros Ha Hb Hbc. apply div_le_iff; [lra|].
  assert (Hq : (0 <= a / b)%Q) by (apply Qle_shift_div_l; lra).
  assert (E : (a == a / b * b)%Q) by (field; lra).
  rewrite E at 1. nra.
Qed.

Lemma quotient_monotone (a b c : Q) :
  (a <= b)%Q -> (0 < c)%Q -> (a / c <= b / c)%Q.
Proof.
  intros Hab Hc. apply div_le_iff; [assumption|].
  assert (E : (b / c * c == b)%Q) by (field; lra).
  now rewrite E.
Qed.

(** X3.  The new size of an axis grows with the original size and shrinks
    with the shrink factor: shrink factors given in decreasing order yield
    levels of non-decreasing size. *)
Theorem new_size_axis_monotone (sz1 sz2 : Z) (sf1 sf2 : Q) :
  0 <= sz1 -> sz1 <= sz2 -> (0 < sf1)%Q -> (sf1 <= sf2)%Q ->
  exists coarse fine,
    new_size_axis sz1 sf2 = Return coarse /\
    new_size_axis sz2 sf1 = Return fine /\
    coarse <= fine.
Proof.
  intros Hsz1 Hsz Hsf1 Hsf.
  exists (Qfloor (inject_Z sz1 / sf2 + (1 # 2))),
         (Qfloor (inject_Z sz2 / sf1 + (1 # 2))).
  split; [apply new_size_axis_floor; [assumption|lra]|].
  split; [apply new_size_axis_floor; [lia|assumption]|].
  apply Qfloor_resp_le.
  assert (H1 : (0 <= inject_Z sz1)%Q)
    by (change 0%Q with (inject_Z 0); now rewrite <- Zle_Qle).
  assert (H2 : (inject_Z sz1 <= inject_Z sz2)%Q) by (now rewrite <- Zle_Qle).
  pose proof (quotient_antitone (inject_Z sz1) sf1 sf2 H1 Hsf1 Hsf).
  pose proof (quotient_monotone (inject_Z sz1) (inject_Z sz2) sf1 H2 Hsf1).
  lra.
Qed.

(** X4.  For a whole shrink factor [k >= 1] the new size is the integer
    quotient [(2 * sz + k) / (2 * k)]; when [k] divides the original size it is
    exactly [sz / k]. *)
Theorem new_size_axis_whole_factor (sz k : Z) :
  0 <= sz -> 1 <= k ->
  new_size_axis sz (inject_Z k) = Return ((2 * sz + k) / (2 * k)) /\
  ((k | sz) -> new_size_axis sz (inject_Z k) = Return (sz / k)).
Proof.
  intros Hsz Hk.
  assert (Hpos : (0 < inject_Z k)%Q)
    by (change 0%Q with (inject_Z 0); rewrite <- Zlt_Qlt; lia).
  assert (Hformula :
            new_size_axis sz (inject_Z k) = Return ((2 * sz + k) / (2 * k))).
  { rewrite (new_size_axis_floor sz (inject_Z k) Hsz Hpos). f_equal.
    rewrite Zdiv_Qdiv. apply Qfloor_comp.
    rewrite inject_Z_plus, !inject_Z_mult. change (inject_Z 2) with 2%Q.
    field. lra. }
  split; [exact Hformula|].
  intros [m ->]. rewrite Hformula. f_equal.
  rewrite Z.div_mul by lia.
  symmetry. apply (Z.div_unique _ _ m k); nia.
Qed.

(** *** The mesh of the B-spline transform *)

Lemma mesh_size_axis_Return (image_size : Q) :
  mesh_size_axis (image_size, 50%Q) =
  Return (int (image_size / 50 + (1 # 2))%Q).
Proof. reflexivity. Qed.

Lemma mesh_size_three_axes (fixed_image : Image) :
  mesh_size fixed_image =
  Return (map (fun physical => int (physical / 50 + (1 # 2))%Q)
              (take 3 (image_physical_size fixed_image))).
Proof.
  unfold mesh_size.
  destruct (image_physical_size fixed_image) as [|a [|b [|c [|d l]]]];
    reflexivity.
Qed.

Lemma physical_size_nonneg (fixed_image : Image) :
  Forall (fun sz => 0 <= sz) (img_size fixed_image) ->
  Forall (fun spc => (0 <= spc)%Q) (img_spacing fixed_image) ->
  Forall (fun physical => (0 <= physical)%Q) (image_physical_size fixed_image).
Proof.
  unfold image_physical_size. intros Hsize.
  generalize (img_spacing fixed_image).
  induction Hsize as [|sz size Hsz Hsize IH]; intros [|spc spacing] Hspacing;
    cbn; try constructor.
  - inversion Hspacing; subst.
    assert (0 <= inject_Z sz)%Q
      by (change 0%Q with (inject_Z 0); now rewrite <- Zle_Qle).
    nra.
  - apply IH. now inversion Hspacing.
Qed.

(** X9.  The mesh size of [bspline_intra_modal_registration] is computed
    without an exception (the only divisor is the constant 50.0) for finite
    physical sizes.  It has one entry per axis of the image, three at most.
    For non-negative sizes and spacings each entry is a non-negative integer
    within one half of the physical size of the axis divided by 50, up to the
    rounding of the floating-point operations; it is at least 1 when the axis
    is at least 25 (mm) long and 0 when it is at most 12.5 (mm) long. *)
Theorem mesh_size_rounds (fixed_image : Image) :
  exists mesh,
    mesh_size fixed_image = Return mesh /\
    length mesh =
      ((length (img_size fixed_image) `min` length (img_spacing fixed_image))
         `min` 3)%nat /\
    (Forall (fun sz => 0 <= sz) (img_size fixed_image) ->
     Forall (fun spc => (0 <= spc)%Q) (img_spacing fixed_image) ->
     Forall2 (fun physical n =>
                0 <= n /\
                (inject_Z n - (1 # 2) <=
                   physical / 50 + rounding_tolerance * (physical / 50 + 1))%Q /\
                (physical / 50 - rounding_tolerance * (physical / 50 + 1) <
                   inject_Z n + (1 # 2))%Q /\
                ((25 <= physical)%Q -> 1 <= n) /\
                ((2 * physical <= 25)%Q -> n = 0))
             (take 3 (image_physical_size fixed_image)) mesh).
Proof.
  exists (map (fun physical => int (physical / 50 + (1 # 2))%Q)
              (take 3 (image_physical_size fixed_image))).
  split; [apply mesh_size_three_axes|].
  split.
  - rewrite length_map, length_take. unfold image_physical_size.
    rewrite length_zip_with. lia.
  - intros Hsize Hspacing. apply Forall2_fmap_r, Forall_Forall2_diag.
    apply Forall_take.
    eapply Forall_impl; [apply (physical_size_nonneg _ Hsize Hspacing)|].
    intros physical Hphys. unfold compose. cbn beta in Hphys.
    assert (Hq : (0 <= physical / 50)%Q)
      by (apply Qle_shift_div_l; [reflexivity|lra]).
    rewrite int_floor by lra.
    destruct (floor_half_bounds (physical / 50)) as [Hlo Hhi].
    set (n := Qfloor (physical / 50 + (1 # 2))) in *.
    assert (Hn0 : 0 <= n).
    { assert (H : (inject_Z (-1) < inject_Z n)%Q)
        by (change (inject_Z (-1)) with (-1 # 1)%Q; lra).
      rewrite <- Zlt_Qlt in H. lia. }
    split; [exact Hn0|].
    unfold rounding_tolerance. split; [lra|]. split; [lra|]. split.
    + intros Hlong.
      assert (Hhalf : ((1 # 2) <= physical / 50)%Q)
        by (apply Qle_shift_div_l; [reflexivity|lra]).
      assert (H : (inject_Z 0 < inject_Z n)%Q)
        by (change (inject_Z 0) with 0%Q; lra).
      rewrite <- Zlt_Qlt in H. lia.
    + intros Hshort.
      assert (Hquarter : (physical / 50 <= 1 # 4)%Q)
        by (apply Qle_shift_div_r; [reflexivity|lra]).
      assert (H : (inject_Z n < inject_Z 1)%Q)
        by (change (inject_Z 1) with 1%Q; lra).
      rewrite <- Zlt_Qlt in H. lia.
Qed.

(** *** When [smooth_and_resample] fails *)

Lemma mapM_raises_only {A B} (f : A -> Result B) (l : list A) (e e' : PyExn) :
  (forall x e', f x = Raise e' -> e' = e) -> mapM f l = Raise e' -> e' = e.
Proof.
  intros Honly. induction l as [|x l IH]; cbn; [discriminate|].
  destruct (f x) as [b|e1] eqn:Ex; cbn.
  - destruct (mapM f l) as [k|e2]; cbn; [discriminate|].
    intros [= <-]. now apply IH.
  - intros [= <-]. now apply (Honly x).
Qed.

Lemma new_size_axis_raises (sz : Z) (sf : Q) (e : PyExn) :
  new_size_axis sz sf = Raise e -> e = ZeroDivisionError.
Proof.
  unfold new_size_axis, float_div.
  destruct (Qeq_bool sf 0); cbv [mbind Result_bind mret Result_ret]; congruence.
Qed.

Lemma level_image_raises (img : Image) (sf ss : Q) (e : PyExn) :
  level_image img sf ss = Raise e -> e = ZeroDivisionError.
Proof.
  unfold level_image.
  destruct (new_size (img_size img) sf) as [sizes|e1] eqn:Hns;
    cbn [mbind Result_bind].
  - destruct (new_spacing (img_size img) (img_spacing img) sizes)
      as [sps|e2] eqn:Hsp; cbn [mbind Result_bind]; [discriminate|].
    intros [= <-]. unfold new_spacing in Hsp.
    apply (mapM_raises_only _ _ _ _ new_spacing_axis_raises Hsp).
  - intros [= <-]. unfold new_size in Hns.
    apply (mapM_raises_only _ _ ZeroDivisionError _
             (fun sz => new_size_axis_raises sz sf) Hns).
Qed.

Lemma one_somewhere_or_nowhere (sizes : list Z) :
  (exists i, sizes !! i = Some 1) \/ Forall (fun n => n <> 1) sizes.
Proof.
  induction sizes as [|n sizes [[i Hi]|IH]].
  - right. constructor.
  - left. now exists (S i).
  - destruct (Z.eq_dec n 1) as [->|Hn].
    + left. now exists 0%nat.
    + right. now constructor.
Qed.

Lemma collapses_raises (img : Image) (sf ss : Q) :
  well_formed img -> collapses img sf ->
  level_image img sf ss = Raise ZeroDivisionError.
Proof.
  intros Hwf (sz & Hin & Hone).
  assert (Hsf : ~ (sf == 0)%Q).
  { intros H0. unfold new_size_axis in Hone.
    now rewrite (float_div_Raise _ _ H0) in Hone. }
  pose proof (new_size_Return (img_size img) sf Hsf) as Hns.
  set (sizes := map _ _) in Hns.
  apply list_elem_of_lookup in Hin as [i Hi].
  pose proof Hns as HF. apply mapM_Return in HF.
  destruct (Forall2_lookup_l _ _ _ _ _ HF Hi) as (n & Hn & Hax).
  assert (n = 1) by congruence. subst n.
  destruct (lookup_lt_is_Some_2 (img_spacing img) i) as [ospc Hspc].
  { unfold well_formed in Hwf. rewrite Hwf.
    now apply lookup_lt_is_Some_1; exists sz. }
  unfold level_image. rewrite Hns; cbn [mbind Result_bind].
  now rewrite (new_spacing_collapse _ _ _ _ _ _ Hi Hspc Hn).
Qed.

Lemma level_image_fails_iff (img : Image) (sf ss : Q) :
  well_formed img ->
  level_image img sf ss = Raise ZeroDivisionError <->
  ((sf == 0)%Q /\ img_size img <> []) \/ collapses img sf.
Proof.
  intros Hwf. split.
  - intros Hraise.
    destruct (Qeq_bool sf 0) eqn:E.
    + apply Qeq_bool_iff in E. left. split; [exact E|].
      intros Hnil. unfold level_image in Hraise. rewrite Hnil in Hraise.
      unfold well_formed in Hwf. rewrite Hnil in Hwf.
      destruct (img_spacing img); [|discriminate]. discriminate.
    + right. apply Qeq_bool_neq in E.
      pose proof (new_size_Return (img_size img) sf E) as Hns.
      set (sizes := map _ _) in Hns.
      destruct (one_somewhere_or_nowhere sizes) as [[i Hi]|Hne].
      * pose proof Hns as HF. apply mapM_Return in HF.
        destruct (Forall2_lookup_r _ _ _ _ _ HF Hi) as (sz & Hsz & Hax).
        exists sz. split; [now apply list_elem_of_lookup_2 in Hsz|exact Hax].
      * destruct (level_image_sizes img sf ss sizes Hns Hne) as (lvl & Hl & _).
        congruence.
  - intros [[H0 Hne]|Hc]; [|now apply collapses_raises].
    assert (Hns : new_size (img_size img) sf = Raise ZeroDivisionError).
    { apply mapM_Raise; [intros sz e; apply new_size_axis_raises|].
      destruct (img_size img) as [|sz size]; [contradiction|].
      exists sz. split; [apply list_elem_of_here|].
      unfold new_size_axis. now rewrite (float_div_Raise _ _ H0). }
    unfold level_image. now rewrite Hns.
Qed.

(** X2.  For an image with one spacing per axis, and the smoothing of
    SimpleITK having succeeded, [smooth_and_resample] raises
    [ZeroDivisionError] exactly when the shrink factor is zero (and the image
    has an axis) or some axis gets the new size 1. *)
Theorem smooth_and_resample_ZeroDivisionError_iff image img
    (shrink_factor smoothing_sigma : Q) rt :
  heap rt !! image = Some img -> well_formed img ->
  (smooth_and_resample image shrink_factor smoothing_sigma rt).1 =
    Raise ZeroDivisionError <->
  ((shrink_factor == 0)%Q /\ img_size img <> []) \/
  collapses img shrink_factor.
Proof.
  intros E Hwf. rewrite (smooth_and_resample_run _ _ _ _ _ E). cbv zeta.
  pose proof (level_image_fails_iff img shrink_factor smoothing_sigma Hwf) as Hiff.
  pose proof (level_image_raises img shrink_factor smoothing_sigma) as Honly.
  destruct (level_image img shrink_factor smoothing_sigma) as [lvl|e];
    cbn [fst].
  - split; [discriminate|]. intros H. apply Hiff in H. discriminate.
  - pose proof (Honly e eq_refl) as ->.
    split; [intros _; now apply Hiff|reflexivity].
Qed.

(** X1.  How the driver reads its two optional lists.  Shrink factors given
    without smoothing sigmas (the default [None]) make it raise [TypeError] at
    once: no SimpleITK call is made and the heap, the filter and the call log
    are as before.  Smoothing sigmas given without shrink factors ([None] or
    an empty list) are never looked at: the call is the single-scale one. *)
Theorem optional_lists_handling fixed moving
    (initial_transform : option Transform) (shrink_factor : Q)
    (shrink_factors : list Q) (smoothing_sigmas : option (list Q)) rt :
  multiscale_demons fixed moving initial_transform
    (Some (shrink_factor :: shrink_factors)) None rt = (Raise TypeError, rt) /\
  multiscale_demons fixed moving initial_transform None smoothing_sigmas rt =
  multiscale_demons fixed moving initial_transform None None rt /\
  multiscale_demons fixed moving initial_transform (Some []) smoothing_sigmas rt =
  multiscale_demons fixed moving initial_transform None None rt.
Proof. repeat split. Qed.

(** *** The grid of a level *)

Lemma level_image_inv (img : Image) (sf ss : Q) (lvl : Image) :
  level_image img sf ss = Return lvl ->
  new_size (img_size img) sf = Return (img_size lvl) /\
  new_spacing (img_size img) (img_spacing img) (img_size lvl) =
    Return (img_spacing lvl) /\
  img_origin lvl = img_origin img /\
  img_direction lvl = img_direction img /\
  img_pixel_id lvl = img_pixel_id img.
Proof.
  unfold level_image.
  destruct (new_size (img_size img) sf) as [sizes|e]; cbn [mbind Result_bind];
    [|discriminate].
  destruct (new_spacing (img_size img) (img_spacing img) sizes) as [sps|e] eqn:Hsp;
    cbn [mbind Result_bind]; [|discriminate].
  intros [= <-]. cbn. rewrite Hsp. repeat split.
Qed.







(** *** A failing level stops the driver *)

Lemma executed_levels_app (cs1 cs2 : list SitkCall) :
  executed_levels (cs1 ++ cs2) = executed_levels cs1 ++ executed_levels cs2.
Proof. apply omap_app. Qed.





(** *** The driver as a whole *)

Lemma pyramid_calls_silent fixed moving cs :
  pyramid_calls fixed moving cs -> executed_levels cs = [].
Proof. induction 1; [reflexivity|assumption]. Qed.

Lemma run_registration_levels fixed_images moving_images level_images
    field d rt :
  fixed_images <> [] -> length fixed_images = length moving_images ->
  levels_hold rt (reverse (zip fixed_images moving_images)) level_images ->
  heap rt !! field = Some d ->
  let r := coarse_to_fine (registration_algorithm rt) d level_images in
  exists rt',
    run_registration fixed_images moving_images field rt =
      (Return (mkDisplacementFieldTransform r.2), rt') /\
    executed_levels (calls rt') =
      executed_levels (calls rt) ++ reverse (zip fixed_images moving_images) /\
    registration_algorithm rt' = r.1.
Proof.
  intros Hne Hlen Hlv Ed r.
  destruct (exists_last Hne) as (fixed_rest & f_top & ->).
  destruct moving_images as [|m_top moving_rest _] using rev_ind;
    [rewrite length_app in Hlen; cbn in Hlen; lia|].
  rewrite !length_app in Hlen; cbn [length] in Hlen.
  assert (Hlen' : length fixed_rest = length moving_rest) by lia.
  assert (Hzip : reverse (zip (fixed_rest ++ [f_top]) (moving_rest ++ [m_top])) =
                 (f_top, m_top) :: reverse (zip fixed_rest moving_rest)).
  { rewrite zip_with_app by assumption. cbn [zip_with]. apply reverse_snoc. }
  unfold r. rewrite Hzip in Hlv |- *.
  inversion Hlv as [|? [f m] ? level_images' [Ef Em] Hlv']; subst.
  cbn [fst snd] in Ef, Em.
  destruct (run_registration_run _ _ _ _ _ _ _ _ _ _ Hlen' Hlv' Ef Em Ed)
    as (rt' & Hrun & Hcalls & Halg).
  exists rt'. split; [exact Hrun|]. split; [|exact Halg].
  rewrite Hcalls, executed_levels_app. f_equal. apply executed_levels_spec.
Qed.

Lemma zip_levels_hold rt fimg mimg (fls mls : list handle)
    (ds : list (Q * Q)) (levels : list (Image * Image)) :
  Forall2 (holds_level rt fimg) fls ds ->
  Forall2 (holds_level rt mimg) mls ds ->
  Forall2 (fun d lv => level_image fimg d.1 d.2 = Return lv.1 /\
                       level_image mimg d.1 d.2 = Return lv.2) ds levels ->
  levels_hold rt (zip fls mls) levels.
Proof.
  intros Hf. revert mls levels.
  induction Hf as [|fh d fls ds (fl & Hfl & Hfh) Hf IH]; intros mls levels Hm Hl.
  - inversion Hm; subst. inversion Hl; subst. constructor.
  - inversion Hm as [|mh ? mls' ? (ml & Hml & Hmh) Hm']; subst.
    inversion Hl as [|? [lf lm] ? levels' [H1 H2] Hl']; subst.
    cbn [fst snd] in *. cbn [zip_with]. constructor; [|now apply IH].
    cbn [fst snd]. split; congruence.
Qed.

Lemma last_of_reverse_zip {A B} (l : list A) (k : list B) (a : A) (b : B) rest :
  length l = length k -> reverse (zip l k) = (a, b) :: rest -> last l = Some a.
Proof.
  intros Hlen Hrev.
  assert (Hzip : zip l k = reverse rest ++ [(a, b)]).
  { rewrite <- (reverse_involutive (zip l k)), Hrev. apply reverse_cons. }
  assert (Hl : l = (reverse rest).*1 ++ [a]).
  { rewrite <- (fst_zip l k) by lia. rewrite Hzip. now rewrite fmap_app. }
  rewrite Hl. apply last_snoc.
Qed.

Lemma initial_field_run (initial_transform : option Transform)
    fixed_images top c rt :
  last fixed_images = Some top -> heap rt !! top = Some c ->
  (initial_transform = None -> two_or_three_dimensional c) ->
  let initial := match initial_transform with
                 | Some t => transform_displacement_field t c
                 | None => zero_displacement_field c
                 end in
  exists cs,
    create_initial_displacement_field initial_transform fixed_images rt =
      (Return (length (heap rt)),
       mkRuntime (heap rt ++ [initial]) (registration_algorithm rt)
                 (calls rt ++ cs)) /\
    executed_levels cs = [].
Proof.
  intros Hlast Ec Hdim. destruct initial_transform as [t|]; cbv zeta.
  - eexists. split; [apply (transform_field_run _ _ _ _ _ Hlast Ec)|reflexivity].
  - eexists.
    split; [apply (zero_field_run _ _ _ _ Hlast Ec (Hdim eq_refl))|reflexivity].
Qed.

(** X8.  The driver end to end.  When every descriptor yields a level of the
    fixed and of the moving image and, if no initial transform is given, the
    fixed level of the first descriptor (the original fixed image when there
    is no descriptor) is two- or three-dimensional, the driver returns the
    transform that wraps
    the field [coarse_to_fine] computes from the initial field (the sampled
    initial transform, or zeros, on the grid of the first descriptor's fixed
    level) over the levels taken in descriptor order and then the original
    images; the filter is left in the matching state; [Execute] is called once
    per descriptor and, last, once on the two input images. *)
Theorem multiscale_demons_in_descriptor_order fixed moving fimg mimg
    (initial_transform : option Transform)
    (descriptors : list (Q * Q)) (levels : list (Image * Image)) rt :
  heap rt !! fixed = Some fimg -> heap rt !! moving = Some mimg ->
  Forall2 (fun d lv => level_image fimg d.1 d.2 = Return lv.1 /\
                       level_image mimg d.1 d.2 = Return lv.2)
          descriptors levels ->
  (initial_transform = None ->
   two_or_three_dimensional (hd (fimg, mimg) levels).1) ->
  let top := (hd (fimg, mimg) levels).1 in
  let initial := match initial_transform with
                 | Some t => transform_displacement_field t top
                 | None => zero_displacement_field top
                 end in
  let r := coarse_to_fine (registration_algorithm rt) initial
                          (levels ++ [(fimg, mimg)]) in
  exists rt' level_handles,
    multiscale_demons fixed moving initial_transform
      (Some descriptors.*1) (Some descriptors.*2) rt =
      (Return (mkDisplacementFieldTransform r.2), rt') /\
    registration_algorithm rt' = r.1 /\
    executed_levels (calls rt') =
      executed_levels (calls rt) ++ level_handles ++ [(fixed, moving)] /\
    length level_handles = length descriptors.
Proof.
  intros Ef Em Hlevels Hdim top initial r.
  assert (Hall : Forall
            (fun d => (exists l, level_image fimg d.1 d.2 = Return l) /\
                      (exists l, level_image mimg d.1 d.2 = Return l))
            (zip descriptors.*1 descriptors.*2)).
  { rewrite zip_fst_snd. apply Forall_lookup. intros i d Hd.
    destruct (Forall2_lookup_l _ _ _ _ _ Hlevels Hd) as (lv & _ & H1 & H2).
    eauto. }
  destruct (create_image_pyramid_run _ _ _ _ _ _ rt Ef Em Hall)
    as (fls & mls & rt1 & Hpyr & Hfl & Hml & [ext Hext] & Halg1 & cs & Hcs & Hpc).
  rewrite zip_fst_snd in Hfl, Hml.
  pose proof (Forall2_length _ _ _ Hfl) as Lf.
  pose proof (Forall2_length _ _ _ Hml) as Lm.
  rewrite length_reverse in Lf, Lm.
  (* the handles of the levels refer to [levels], first descriptor first *)
  assert (Hhold : levels_hold rt1 (reverse (zip fls mls)) levels).
  { pose proof (zip_levels_hold rt1 fimg mimg fls mls (reverse descriptors)
                  (reverse levels) Hfl Hml (Forall2_reverse _ _ _ Hlevels)) as H.
    apply Forall2_reverse in H. now rewrite reverse_involutive in H. }
  assert (Ef1 : heap rt1 !! fixed = Some fimg)
    by (rewrite Hext; now apply lookup_app_l_Some).
  assert (Em1 : heap rt1 !! moving = Some mimg)
    by (rewrite Hext; now apply lookup_app_l_Some).
  assert (Hall1 : levels_hold rt1
            (reverse (zip (fixed :: fls) (moving :: mls)))
            (levels ++ [(fimg, mimg)])).
  { cbn [zip_with]. rewrite reverse_cons. apply Forall2_app; [exact Hhold|].
    constructor; [split; assumption|constructor]. }
  (* the top of the pyramid *)
  assert (Htop : exists top_h, last (fixed :: fls) = Some top_h /\
                               heap rt1 !! top_h = Some top).
  { unfold levels_hold in Hall1.
    destruct (reverse (zip (fixed :: fls) (moving :: mls)))
      as [|[th tm] hrest] eqn:Hrev.
    - apply Forall2_nil_inv_l in Hall1. now destruct levels.
    - exists th. split.
      + apply (last_of_reverse_zip _ (moving :: mls) th tm hrest);
          [cbn; lia|exact Hrev].
      + unfold top.
        destruct levels as [|lv levels']; cbn [app hd] in Hall1 |- *;
          inversion Hall1 as [|? ? ? ? [Hth _] _]; subst; exact Hth. }
  destruct Htop as (top_h & Hlast & Etop).
  destruct (initial_field_run initial_transform _ _ _ rt1 Hlast Etop Hdim)
    as (ics & Hinit & Hics).
  fold top in Hinit. fold initial in Hinit.
  set (rt2 := mkRuntime (heap rt1 ++ [initial]) (registration_algorithm rt1)
                        (calls rt1 ++ ics)) in *.
  assert (Hext2 : exists ext', heap rt2 = heap rt1 ++ ext') by (cbn; eauto).
  assert (Ed2 : heap rt2 !! length (heap rt1) = Some initial).
  { cbn [rt2 heap]. rewrite lookup_app_r by lia. now rewrite Nat.sub_diag. }
  destruct (run_registration_levels (fixed :: fls) (moving :: mls)
              (levels ++ [(fimg, mimg)]) (length (heap rt1)) initial rt2)
    as (rt' & Hrun & Hexec & Halg); [discriminate|cbn; lia| |exact Ed2|].
  { exact (levels_hold_mono _ _ _ _ Hext2 Hall1). }
  exists rt', (reverse (zip fls mls)).
  assert (Hr : coarse_to_fine (registration_algorithm rt2) initial
                 (levels ++ [(fimg, mimg)]) = r)
    by (unfold r; cbn [rt2 registration_algorithm]; now rewrite Halg1).
  rewrite Hr in Hrun, Halg.
  split; [|split; [exact Halg|split]].
  - unfold multiscale_demons.
    rewrite run_bind, Hpyr. cbv beta iota zeta.
    rewrite run_bind, Hinit. cbv beta iota zeta. exact Hrun.
  - rewrite Hexec. cbn [rt2 calls zip_with]. rewrite reverse_cons.
    rewrite Hcs, !executed_levels_app, Hics, (pyramid_calls_silent _ _ _ Hpc).
    now rewrite !app_nil_r.
  - rewrite length_reverse, length_zip_with. lia.
Qed.

(** *** The grid of the initial displacement field *)

Lemma rounded_quotient_antitone (sz : Z) (sf1 sf2 : Q) :
  0 <= sz -> (0 < sf1)%Q -> (sf1 <= sf2)%Q ->
  int (inject_Z sz / sf2 + (1 # 2))%Q <= int (inject_Z sz / sf1 + (1 # 2))%Q.
Proof.
  intros Hsz H1 H12.
  assert (Hs : (0 <= inject_Z sz)%Q)
    by (change 0%Q with (inject_Z 0); now rewrite <- Zle_Qle).
  assert (H2 : (0 < sf2)%Q) by lra.
  pose proof (quotient_nonneg sz sf1 Hsz H1) as Hq1.
  pose proof (quotient_nonneg sz sf2 Hsz H2) as Hq2.
  rewrite !int_floor by lra.
  apply Qfloor_resp_le.
  pose proof (quotient_antitone _ _ _ Hs H1 H12). lra.
Qed.

Lemma rounded_quotient_at_most (sz : Z) (sf : Q) :
  0 <= sz -> (1 < sf)%Q -> int (inject_Z sz / sf + (1 # 2))%Q <= sz.
Proof.
  intros Hsz Hsf.
  assert (Hs : (0 <= inject_Z sz)%Q)
    by (change 0%Q with (inject_Z 0); now rewrite <- Zle_Qle).
  assert (H0 : (0 < sf)%Q) by lra.
  pose proof (quotient_nonneg sz sf Hsz H0) as Hq.
  rewrite int_floor by lra.
  assert (Hle : (inject_Z sz / sf <= inject_Z sz)%Q)
    by (apply Qle_shift_div_r; [exact H0|nra]).
  pose proof (Qfloor_le (inject_Z sz / sf + (1 # 2))) as Hfl.
  assert (H : (inject_Z (Qfloor (inject_Z sz / sf + (1 # 2))) <
               inject_Z (sz + 1))%Q).
  { rewrite inject_Z_plus. change (inject_Z 1) with 1%Q. lra. }
  rewrite <- Zlt_Qlt in H. lia.
Qed.

Lemma no_finer_refl (a : Image) : no_finer a a.
Proof.
  unfold no_finer. induction (img_size a); constructor; [lia|assumption].
Qed.

Lemma new_size_no_finer (size s1 s2 : list Z) (sf1 sf2 : Q) :
  Forall (fun sz => 0 <= sz) size -> (0 < sf1)%Q -> (sf1 <= sf2)%Q ->
  new_size size sf1 = Return s1 -> new_size size sf2 = Return s2 ->
  Forall2 Z.le s2 s1.
Proof.
  intros Hpos H1 H12 E1 E2.
  rewrite new_size_Return in E1 by (intros E; lra).
  rewrite new_size_Return in E2 by (intros E; lra).
  injection E1 as <-. injection E2 as <-.
  induction Hpos as [|sz size Hsz Hpos IH]; cbn [map]; constructor.
  - now apply rounded_quotient_antitone.
  - exact IH.
Qed.

Lemma new_size_at_most (size s : list Z) (sf : Q) :
  Forall (fun sz => 0 <= sz) size -> (1 < sf)%Q ->
  new_size size sf = Return s -> Forall2 Z.le s size.
Proof.
  intros Hpos Hsf E.
  rewrite new_size_Return in E by (intros E'; lra).
  injection E as <-.
  induction Hpos as [|sz size Hsz Hpos IH]; cbn [map]; constructor.
  - now apply rounded_quotient_at_most.
  - exact IH.
Qed.

(** The pyramid of a descriptor list that yields all its levels: the last
    element of the list of fixed images holds the level of the first
    descriptor, or the original image when there is no descriptor. *)
Lemma create_image_pyramid_top fixed moving fimg mimg
    (descriptors : list (Q * Q)) (levels : list (Image * Image)) rt :
  heap rt !! fixed = Some fimg -> heap rt !! moving = Some mimg ->
  Forall2 (fun d lv => level_image fimg d.1 d.2 = Return lv.1 /\
                       level_image mimg d.1 d.2 = Return lv.2)
          descriptors levels ->
  exists fixed_images moving_images rt1 top_h,
    create_image_pyramid fixed moving
      (Some descriptors.*1) (Some descriptors.*2) rt =
      (Return (fixed_images, moving_images), rt1) /\
    last fixed_images = Some top_h /\
    heap rt1 !! top_h = Some (hd (fimg, mimg) levels).1 /\
    registration_algorithm rt1 = registration_algorithm rt /\
    executed_levels (calls rt1) = executed_levels (calls rt).
Proof.
  intros Ef Em Hlevels.
  assert (Hall : Forall
            (fun d => (exists l, level_image fimg d.1 d.2 = Return l) /\
                      (exists l, level_image mimg d.1 d.2 = Return l))
            (zip descriptors.*1 descriptors.*2)).
  { rewrite zip_fst_snd. apply Forall_lookup. intros i d Hd.
    destruct (Forall2_lookup_l _ _ _ _ _ Hlevels Hd) as (lv & _ & H1 & H2).
    eauto. }
  destruct (create_image_pyramid_run _ _ _ _ _ _ rt Ef Em Hall)
    as (fls & mls & rt1 & Hpyr & Hfl & Hml & [ext Hext] & Halg & cs & Hcs & Hpc).
  assert (Hsilent : executed_levels (calls rt1) = executed_levels (calls rt)).
  { rewrite Hcs, executed_levels_app, (pyramid_calls_silent _ _ _ Hpc).
    now rewrite app_nil_r. }
  rewrite zip_fst_snd in Hfl, Hml.
  pose proof (Forall2_length _ _ _ Hfl) as Lf.
  pose proof (Forall2_length _ _ _ Hml) as Lm.
  rewrite length_reverse in Lf, Lm.
  assert (Hhold : levels_hold rt1 (reverse (zip fls mls)) levels).
  { pose proof (zip_levels_hold rt1 fimg mimg fls mls (reverse descriptors)
                  (reverse levels) Hfl Hml (Forall2_reverse _ _ _ Hlevels)) as H.
    apply Forall2_reverse in H. now rewrite reverse_involutive in H. }
  assert (Ef1 : heap rt1 !! fixed = Some fimg)
    by (rewrite Hext; now apply lookup_app_l_Some).
  assert (Em1 : heap rt1 !! moving = Some mimg)
    by (rewrite Hext; now apply lookup_app_l_Some).
  assert (Hall1 : levels_hold rt1
            (reverse (zip (fixed :: fls) (moving :: mls)))
            (levels ++ [(fimg, mimg)])).
  { cbn [zip_with]. rewrite reverse_cons. apply Forall2_app; [exact Hhold|].
    constructor; [split; assumption|constructor]. }
  exists (fixed :: fls), (moving :: mls), rt1.
  unfold levels_hold in Hall1.
  destruct (reverse (zip (fixed :: fls) (moving :: mls)))
    as [|[th tm] hrest] eqn:Hrev.
  - apply Forall2_nil_inv_l in Hall1. now destruct levels.
  - exists th. split; [exact Hpyr|].
    split; [|split; [|split; [exact Halg|exact Hsilent]]].
    + apply (last_of_reverse_zip _ (moving :: mls) th tm hrest);
        [cbn; lia|exact Hrev].
    + destruct levels as [|lv levels']; cbn [app hd] in Hall1 |- *;
        inversion Hall1 as [|? ? ? ? [Hth _] _]; subst; exact Hth.
Qed.

(** When the first descriptor has the largest shrink factor, its level is the
    coarsest of the pyramid: on no axis has it more samples than any other
    level or than the original image. *)
Lemma first_level_is_coarsest (fimg mimg : Image)
    (descriptors : list (Q * Q)) (levels : list (Image * Image)) :
  Forall2 (fun d lv => level_image fimg d.1 d.2 = Return lv.1 /\
                       level_image mimg d.1 d.2 = Return lv.2)
          descriptors levels ->
  Forall (fun sz => 0 <= sz) (img_size fimg) ->
  Forall (fun d => (1 < d.1)%Q) descriptors ->
  (forall first rest, descriptors = first :: rest ->
                      Forall (fun d => (d.1 <= first.1)%Q) rest) ->
  Forall (fun lv => no_finer (hd (fimg, mimg) levels).1 lv.1)
         (levels ++ [(fimg, mimg)]).
Proof.
  intros Hlevels Hpos Hvalid Hfirst.
  destruct Hlevels as [|first lv0 rest lvs [Hf0 _] Hrest].
  - cbn. constructor; [apply no_finer_refl|constructor].
  - specialize (Hfirst first rest eq_refl).
    apply Forall_cons in Hvalid as [Hv0 Hvalid].
    apply level_image_inv in Hf0 as [E0 _].
    cbn [hd app]. constructor; [apply no_finer_refl|].
    apply Forall_app. split.
    + apply Forall_lookup. intros i lv Hlv.
      destruct (Forall2_lookup_r _ _ _ _ _ Hrest Hlv) as (d & Hd & Hfd & _).
      apply level_image_inv in Hfd as [Ed _].
      pose proof (Forall_lookup_1 _ _ _ _ Hvalid Hd) as Hvd.
      pose proof (Forall_lookup_1 _ _ _ _ Hfirst Hd) as Hle.
      cbn beta in Hvd, Hle.
      apply (new_size_no_finer (img_size fimg) _ _ d.1 first.1);
        [exact Hpos|lra|exact Hle|exact Ed|exact E0].
    + constructor; [|constructor]. cbn [fst].
      apply (new_size_at_most (img_size fimg) _ first.1);
        [exact Hpos|exact Hv0|exact E0].
Qed.

(** C6 (amended).  When every descriptor yields a level of the fixed and of the
    moving image, the driver builds its initial displacement field on the
    grid of [fixed_images[-1]], the fixed level of the first descriptor (the
    original fixed image when there is no descriptor): same size, spacing,
    origin and direction.  With an initial transform the field is that
    transform sampled on this grid; without one the level must be two- or
    three-dimensional and every pixel of the field is the zero vector.  The
    registration then starts from this field.  This level is the coarsest of
    the pyramid whenever the first shrink factor is the largest one. *)
Theorem initial_field_on_first_level_grid fixed moving fimg mimg
    (initial_transform : option Transform)
    (descriptors : list (Q * Q)) (levels : list (Image * Image)) rt :
  heap rt !! fixed = Some fimg -> heap rt !! moving = Some mimg ->
  Forall2 (fun d lv => level_image fimg d.1 d.2 = Return lv.1 /\
                       level_image mimg d.1 d.2 = Return lv.2)
          descriptors levels ->
  (initial_transform = None ->
   two_or_three_dimensional (hd (fimg, mimg) levels).1) ->
  let top := (hd (fimg, mimg) levels).1 in
  exists fixed_images moving_images rt1 field rt2 fld,
    create_image_pyramid fixed moving
      (Some descriptors.*1) (Some descriptors.*2) rt =
      (Return (fixed_images, moving_images), rt1) /\
    create_initial_displacement_field initial_transform fixed_images rt1 =
      (Return field, rt2) /\
    multiscale_demons fixed moving initial_transform
      (Some descriptors.*1) (Some descriptors.*2) rt =
      run_registration fixed_images moving_images field rt2 /\
    heap rt2 !! field = Some fld /\
    same_grid fld top /\
    img_pixel_id fld = sitkVectorFloat64 /\
    match initial_transform with
    | Some t => fld = transform_displacement_field t top
    | None =>
        forall idx, img_pixel fld idx = replicate (length (img_size top)) 0%Q
    end /\
    (Forall (fun sz => 0 <= sz) (img_size fimg) ->
     Forall (fun d => (1 < d.1)%Q) descriptors ->
     (forall first rest, descriptors = first :: rest ->
                         Forall (fun d => (d.1 <= first.1)%Q) rest) ->
     Forall (fun lv => no_finer top lv.1) (levels ++ [(fimg, mimg)])).
Proof.
  intros Ef Em Hlevels Hdim top.
  destruct (create_image_pyramid_top fixed moving fimg mimg descriptors levels
              rt Ef Em Hlevels)
    as (fixed_images & moving_images & rt1 & top_h & Hpyr & Hlast & Etop & _).
  fold top in Etop.
  destruct (initial_field_on_top_grid initial_transform fixed_images top_h top
              rt1 Hlast Etop Hdim)
    as (field & rt2 & fld & Hinit & Hfld & _ & Hgrid & Hpid & Hpix).
  exists fixed_images, moving_images, rt1, field, rt2, fld.
  split; [exact Hpyr|]. split; [exact Hinit|]. split.
  { unfold multiscale_demons.
    rewrite run_bind, Hpyr. cbv beta iota zeta.
    rewrite run_bind, Hinit. reflexivity. }
  split; [exact Hfld|]. split; [exact Hgrid|]. split; [exact Hpid|].
  split; [exact Hpix|].
  intros Hpos Hvalid Hfirst.
  exact (first_level_is_coarsest fimg mimg descriptors levels Hlevels Hpos
           Hvalid Hfirst).
Qed.

(** *** Decreasing shrink factors register coarse to fine *)

Lemma run_registration_frame fixed_images moving_images field rt
    (h : handle) (img : Image) :
  heap rt !! h = Some img ->
  heap (run_registration fixed_images moving_images field rt).2 !! h = Some img.
Proof.
  intros E.
  destruct (frames_run_registration (length (heap rt)) fixed_images
              moving_images field rt (le_n _)) as (_ & Htake & _).
  rewrite firstn_all in Htake.
  pose proof (lookup_lt_Some _ _ _ E) as Hlt.
  rewrite <- (lookup_take_lt _ (length (heap rt)) h Hlt), Htake. exact E.
Qed.

(** Levels made from one base image with shrink factors greater than 1 in
    non-increasing order, followed by the base image itself, run from coarsest
    to finest. *)
Lemma decreasing_factors_no_finer (base : Image)
    (descriptors : list (Q * Q)) (lvls : list Image) :
  Forall2 (fun d lv => level_image base d.1 d.2 = Return lv) descriptors lvls ->
  Forall (fun sz => 0 <= sz) (img_size base) ->
  Forall (fun d => (1 < d.1)%Q) descriptors ->
  (forall i d d', descriptors !! i = Some d -> descriptors !! S i = Some d' ->
                  (d'.1 <= d.1)%Q) ->
  forall i a b, (lvls ++ [base]) !! i = Some a ->
                (lvls ++ [base]) !! S i = Some b -> no_finer a b.
Proof.
  intros Hlv Hpos Hvalid Hdec i a b Ha Hb.
  pose proof (Forall2_length _ _ _ Hlv) as Hlen.
  assert (Hi : (i < length lvls)%nat).
  { apply lookup_lt_Some in Hb. rewrite length_app in Hb. cbn in Hb. lia. }
  rewrite lookup_app_l in Ha by exact Hi.
  destruct (Forall2_lookup_r _ _ _ _ _ Hlv Ha) as (d & Hd & Hda).
  apply level_image_inv in Hda as [Ea _].
  pose proof (Forall_lookup_1 _ _ _ _ Hvalid Hd) as Hvd. cbn beta in Hvd.
  destruct (decide (S i < length lvls)%nat) as [Hsi|Hsi].
  - rewrite lookup_app_l in Hb by exact Hsi.
    destruct (Forall2_lookup_r _ _ _ _ _ Hlv Hb) as (d' & Hd' & Hdb).
    apply level_image_inv in Hdb as [Eb _].
    pose proof (Forall_lookup_1 _ _ _ _ Hvalid Hd') as Hvd'. cbn beta in Hvd'.
    apply (new_size_no_finer (img_size base) _ _ d'.1 d.1);
      [exact Hpos|lra|exact (Hdec i d d' Hd Hd')|exact Eb|exact Ea].
  - rewrite lookup_app_r in Hb by lia.
    replace (S i - length lvls)%nat with 0%nat in Hb by lia.
    injection Hb as <-.
    apply (new_size_at_most (img_size base) _ d.1); assumption.
Qed.

Lemma handles_coarsest_first rt (hs : list handle) (imgs : list Image) :
  Forall2 (fun h img => heap rt !! h = Some img) hs imgs ->
  (forall i a b, imgs !! i = Some a -> imgs !! S i = Some b -> no_finer a b) ->
  coarsest_first rt hs.
Proof.
  intros Hhold Hord i h h' a b Hi Hi' Ea Eb.
  destruct (Forall2_lookup_l _ _ _ _ _ Hhold Hi) as (a' & Ha' & Eha).
  destruct (Forall2_lookup_l _ _ _ _ _ Hhold Hi') as (b' & Hb' & Ehb).
  assert (a' = a) by congruence. assert (b' = b) by congruence. subst.
  exact (Hord i a b Ha' Hb').
Qed.

(** X10.  With shrink factors greater than 1 given in non-increasing order
    (as in the notebook's call, [[4, 2]]), on images with non-negative sizes
    and when every descriptor yields a level (without an initial transform the
    first fixed level must be two- or three-dimensional), the driver returns
    and has run [Execute] on the levels from coarsest to finest: the images of
    each call, fixed and moving, have on no axis more samples than those of
    the next call, and the last call is on the two original images. *)
Theorem decreasing_factors_register_coarse_to_fine fixed moving fimg mimg
    (initial_transform : option Transform)
    (descriptors : list (Q * Q)) (levels : list (Image * Image)) rt :
  heap rt !! fixed = Some fimg -> heap rt !! moving = Some mimg ->
  Forall2 (fun d lv => level_image fimg d.1 d.2 = Return lv.1 /\
                       level_image mimg d.1 d.2 = Return lv.2)
          descriptors levels ->
  (initial_transform = None ->
   two_or_three_dimensional (hd (fimg, mimg) levels).1) ->
  Forall (fun sz => 0 <= sz) (img_size fimg) ->
  Forall (fun sz => 0 <= sz) (img_size mimg) ->
  Forall (fun d => (1 < d.1)%Q) descriptors ->
  (forall i d d', descriptors !! i = Some d -> descriptors !! S i = Some d' ->
                  (d'.1 <= d.1)%Q) ->
  exists t rt' registered,
    multiscale_demons fixed moving initial_transform
      (Some descriptors.*1) (Some descriptors.*2) rt = (Return t, rt') /\
    executed_levels (calls rt') = executed_levels (calls rt) ++ registered /\
    last registered = Some (fixed, moving) /\
    levels_hold rt' registered (levels ++ [(fimg, mimg)]) /\
    coarsest_first rt' registered.*1 /\
    coarsest_first rt' registered.*2.
Proof.
  intros Ef Em Hlevels Hdim Hfpos Hmpos Hvalid Hdec.
  assert (Hall : Forall
            (fun d => (exists l, level_image fimg d.1 d.2 = Return l) /\
                      (exists l, level_image mimg d.1 d.2 = Return l))
            (zip descriptors.*1 descriptors.*2)).
  { rewrite zip_fst_snd. apply Forall_lookup. intros i d Hd.
    destruct (Forall2_lookup_l _ _ _ _ _ Hlevels Hd) as (lv & _ & H1 & H2).
    eauto. }
  destruct (create_image_pyramid_run _ _ _ _ _ _ rt Ef Em Hall)
    as (fls & mls & rt1 & Hpyr & Hfl & Hml & [ext Hext] & Halg1 & cs & Hcs & Hpc).
  rewrite zip_fst_snd in Hfl, Hml.
  pose proof (Forall2_length _ _ _ Hfl) as Lf.
  pose proof (Forall2_length _ _ _ Hml) as Lm.
  rewrite length_reverse in Lf, Lm.
  assert (Hhold : levels_hold rt1 (reverse (zip fls mls)) levels).
  { pose proof (zip_levels_hold rt1 fimg mimg fls mls (reverse descriptors)
                  (reverse levels) Hfl Hml (Forall2_reverse _ _ _ Hlevels)) as H.
    apply Forall2_reverse in H. now rewrite reverse_involutive in H. }
  assert (Ef1 : heap rt1 !! fixed = Some fimg)
    by (rewrite Hext; now apply lookup_app_l_Some).
  assert (Em1 : heap rt1 !! moving = Some mimg)
    by (rewrite Hext; now apply lookup_app_l_Some).
  set (registered := reverse (zip (fixed :: fls) (moving :: mls))).
  assert (Hreg : registered = reverse (zip fls mls) ++ [(fixed, moving)])
    by (unfold registered; cbn [zip_with]; now rewrite reverse_cons).
  assert (Hall1 : levels_hold rt1 registered (levels ++ [(fimg, mimg)])).
  { rewrite Hreg. apply Forall2_app; [exact Hhold|].
    constructor; [split; assumption|constructor]. }
  assert (Htop : exists top_h, last (fixed :: fls) = Some top_h /\
                   heap rt1 !! top_h = Some (hd (fimg, mimg) levels).1).
  { unfold levels_hold in Hall1.
    destruct registered as [|[th tm] hrest] eqn:Hrev.
    - apply Forall2_nil_inv_l in Hall1. now destruct levels.
    - exists th. split.
      + apply (last_of_reverse_zip _ (moving :: mls) th tm hrest);
          [cbn; lia|exact Hrev].
      + destruct levels as [|lv levels']; cbn [app hd] in Hall1 |- *;
          inversion Hall1 as [|? ? ? ? [Hth _] _]; subst; exact Hth. }
  destruct Htop as (top_h & Hlast & Etop).
  destruct (initial_field_run initial_transform _ _ _ rt1 Hlast Etop Hdim)
    as (ics & Hinit & Hics).
  set (initial := match initial_transform with
                  | Some t => transform_displacement_field t _
                  | None => zero_displacement_field _
                  end) in Hinit.
  set (rt2 := mkRuntime (heap rt1 ++ [initial]) (registration_algorithm rt1)
                        (calls rt1 ++ ics)) in *.
  assert (Hext2 : exists ext', heap rt2 = heap rt1 ++ ext') by (cbn; eauto).
  assert (Ed2 : heap rt2 !! length (heap rt1) = Some initial).
  { cbn [rt2 heap]. rewrite lookup_app_r by lia. now rewrite Nat.sub_diag. }
  pose proof (levels_hold_mono _ _ _ _ Hext2 Hall1) as Hall2.
  destruct (run_registration_levels (fixed :: fls) (moving :: mls)
              (levels ++ [(fimg, mimg)]) (length (heap rt1)) initial rt2)
    as (rt' & Hrun & Hexec & _); [discriminate|cbn; lia|exact Hall2|exact Ed2|].
  fold registered in Hexec.
  assert (Hall' : levels_hold rt' registered (levels ++ [(fimg, mimg)])).
  { replace rt' with (run_registration (fixed :: fls) (moving :: mls)
                        (length (heap rt1)) rt2).2 by (now rewrite Hrun).
    unfold levels_hold in *. eapply Forall2_impl; [exact Hall2|].
    cbn beta. intros hs imgs [H1 H2].
    split; now apply run_registration_frame. }
  eexists. exists rt', registered.
  split.
  { unfold multiscale_demons.
    rewrite run_bind, Hpyr. cbv beta iota zeta.
    rewrite run_bind, Hinit. cbv beta iota zeta. exact Hrun. }
  split.
  { rewrite Hexec. cbn [rt2 calls].
    rewrite Hcs, !executed_levels_app, Hics, (pyramid_calls_silent _ _ _ Hpc).
    now rewrite !app_nil_r. }
  split; [rewrite Hreg; apply last_snoc|].
  split; [exact Hall'|].
  split.
  - apply (handles_coarsest_first rt' _ (levels ++ [(fimg, mimg)]).*1).
    + apply Forall2_fmap. eapply Forall2_impl; [exact Hall'|].
      cbn beta. now intros hs imgs [H1 _].
    + rewrite fmap_app. cbn [fmap list_fmap fst].
      apply (decreasing_factors_no_finer fimg descriptors levels.*1);
        try assumption.
      apply Forall2_fmap_r. eapply Forall2_impl; [exact Hlevels|].
      cbn beta. now intros d lv [H1 _].
  - apply (handles_coarsest_first rt' _ (levels ++ [(fimg, mimg)]).*2).
    + apply Forall2_fmap. eapply Forall2_impl; [exact Hall'|].
      cbn beta. now intros hs imgs [_ H2].
    + rewrite fmap_app. cbn [fmap list_fmap snd].
      apply (decreasing_factors_no_finer mimg descriptors levels.*2);
        try assumption.
      apply Forall2_fmap_r. eapply Forall2_impl; [exact Hlevels|].
      cbn beta. now intros d lv [_ H2].
Qed.

(** *** The zero field exists for two- and three-dimensional levels only *)

Lemma new_vector_image_size_inv (c : Image) (pixelID : PixelIDValue) :
  img_size (new_vector_image (nth 0 (img_size c) 0) (nth 1 (img_size c) 0)
                             (nth 2 (img_size c) 0) pixelID) = img_size c ->
  two_or_three_dimensional c.
Proof.
  unfold new_vector_image. cbn [img_size].
  destruct (Z.eqb_spec (nth 2 (img_size c) 0) 0) as [E0|Hd]; intros E.
  - left. eexists _, _. symmetry. exact E.
  - right. eexists _, _, _. split; [symmetry; exact E|exact Hd].
Qed.

Lemma zero_field_raises fixed_images top c rt :
  last fixed_images = Some top -> heap rt !! top = Some c ->
  ~ two_or_three_dimensional c ->
  let n := length (heap rt) in
  let w := nth 0 (img_size c) 0 in
  let h := nth 1 (img_size c) 0 in
  let d := nth 2 (img_size c) 0 in
  create_initial_displacement_field None fixed_images rt =
  (Raise RuntimeError,
   mkRuntime (heap rt ++ [new_vector_image w h d sitkVectorFloat64])
     (registration_algorithm rt)
     (calls rt ++ [CallImage w h d n; CallCopyInformation n top])).
Proof.
  intros Hlast Ec Hdim n w h d. unfold create_initial_displacement_field.
  rewrite run_bind, (last_item_run _ _ _ Hlast). cbv beta iota zeta.
  rewrite run_bind, (GetWidth_run _ _ _ Ec). cbv beta iota zeta.
  rewrite run_bind, (last_item_run _ _ _ Hlast). cbv beta iota zeta.
  rewrite run_bind, (GetHeight_run _ _ _ Ec). cbv beta iota zeta.
  rewrite run_bind, (last_item_run _ _ _ Hlast). cbv beta iota zeta.
  rewrite run_bind, (GetDepth_run _ _ _ Ec). cbv beta iota zeta.
  rewrite run_bind. unfold NewImage at 1.
  rewrite run_bind. unfold alloc at 1. cbv beta iota zeta.
  rewrite run_bind. unfold record_call at 1. cbv beta iota zeta.
  rewrite run_ret. cbv beta iota zeta. cbn [heap registration_algorithm calls].
  fold n w h d.
  assert (Hsize : img_size (new_vector_image w h d sitkVectorFloat64) <>
                  img_size c)
    by (intros E; apply Hdim; exact (new_vector_image_size_inv c _ E)).
  set (fresh := new_vector_image w h d sitkVectorFloat64) in *.
  clearbody fresh.
  set (rt1 := mkRuntime _ _ _).
  rewrite run_bind, (last_item_run _ _ _ Hlast). cbv beta iota zeta.
  assert (Ec1 : heap rt1 !! top = Some c) by (now apply lookup_app_l_Some).
  assert (En : heap rt1 !! n = Some fresh).
  { unfold rt1, n; cbn [heap]. rewrite lookup_app_r by lia.
    now rewrite Nat.sub_diag. }
  rewrite run_bind. unfold CopyInformation.
  rewrite run_bind, (deref_run _ _ _ En). cbv beta iota zeta.
  rewrite run_bind, (deref_run _ _ _ Ec1). cbv beta iota zeta.
  rewrite run_bind. cbn [record_call].
  unfold same_size. rewrite bool_decide_eq_false_2 by assumption.
  unfold rt1. cbn. now rewrite <- app_assoc.
Qed.

(** X11.  Without an initial transform the driver needs a two- or
    three-dimensional fixed level to start on: when every descriptor yields a
    level and the fixed level of the first descriptor (the original fixed
    image when there is no descriptor) has any other dimension,
    [CopyInformation] refuses the grid of the image that
    [sitk.Image(width, height, depth, pixelID)] made and the driver ends in
    [RuntimeError], with no call of [Execute] and the filter in its initial
    state. *)
Theorem zero_field_needs_2d_or_3d fixed moving fimg mimg
    (descriptors : list (Q * Q)) (levels : list (Image * Image)) rt :
  heap rt !! fixed = Some fimg -> heap rt !! moving = Some mimg ->
  Forall2 (fun d lv => level_image fimg d.1 d.2 = Return lv.1 /\
                       level_image mimg d.1 d.2 = Return lv.2)
          descriptors levels ->
  ~ two_or_three_dimensional (hd (fimg, mimg) levels).1 ->
  exists rt',
    multiscale_demons fixed moving None
      (Some descriptors.*1) (Some descriptors.*2) rt =
      (Raise RuntimeError, rt') /\
    registration_algorithm rt' = registration_algorithm rt /\
    executed_levels (calls rt') = executed_levels (calls rt).
Proof.
  intros Ef Em Hlevels Hdim.
  destruct (create_image_pyramid_top fixed moving fimg mimg descriptors levels
              rt Ef Em Hlevels)
    as (fixed_images & moving_images & rt1 & top_h & Hpyr & Hlast & Etop &
        Halg & Hsilent).
  pose proof (zero_field_raises fixed_images top_h _ rt1 Hlast Etop Hdim)
    as Hinit. cbv zeta in Hinit.
  eexists. split; [|split].
  - unfold multiscale_demons.
    rewrite run_bind, Hpyr. cbv beta iota zeta.
    rewrite run_bind, Hinit. reflexivity.
  - cbn [registration_algorithm]. exact Halg.
  - cbn [calls]. rewrite executed_levels_app, Hsilent. cbn.
    now rewrite app_nil_r.
Qed.

End Driver.

(** ** The model at work *)

Example new_size_axis_256_4 : new_size_axis 256 4 = Return 64.
Proof. reflexivity. Qed.

Example new_size_axis_5_2 : new_size_axis 5 2 = Return 3.
Proof. reflexivity. Qed.

Example new_spacing_8_to_4 :
  new_spacing [8; 8] [1%Q; 1%Q] [4; 4] = Return [(7 # 3)%Q; (7 # 3)%Q].
Proof. reflexivity. Qed.

(** The notebook's call, [shrink_factors = [4, 2]] and [smoothing_sigmas =
    [8, 4]]: the pyramid is [original; level of 2; level of 4], the filter runs
    on the 2 x 2 level, then on the 4 x 4 level, then on the original. *)
Example notebook_call :
  let r := multiscale_demons sample_smooth_pixels sample_resample_pixels
             unit sample_transform_pixels nat sample_execute
             0%nat 1%nat None (Some [4%Q; 2%Q]) (Some [8%Q; 4%Q]) sample_runtime in
  executed_levels (calls r.2) = [(7, 9); (3, 5); (0, 1)]%nat /\
  (img_size <$> heap r.2 !! 7%nat) = Some [2; 2] /\
  (img_size <$> heap r.2 !! 3%nat) = Some [4; 4] /\
  (img_size <$> heap r.2 !! 0%nat) = Some [8; 8] /\
  registration_algorithm r.2 = 3%nat.
Proof. vm_compute. repeat split. Qed.

(** ** The theorems at concrete inputs *)

Lemma sample_descriptors_valid :
  Forall (fun d : Q * Q =>
            (1 < d.1)%Q /\ ~ collapses sample_image d.1 /\
            ~ collapses sample_image d.1)
         [(4%Q, 8%Q); (2%Q, 4%Q)].
Proof.
  repeat constructor; cbn [fst].
  - apply (not_collapses_by_sizes _ _ [2; 2]); [reflexivity|].
    repeat constructor; lia.
  - apply (not_collapses_by_sizes _ _ [2; 2]); [reflexivity|].
    repeat constructor; lia.
  - apply (not_collapses_by_sizes _ _ [4; 4]); [reflexivity|].
    repeat constructor; lia.
  - apply (not_collapses_by_sizes _ _ [4; 4]); [reflexivity|].
    repeat constructor; lia.
Defined.

(** C1, the claim as stated fails: with the single valid descriptor [(2, 4)]
    the pyramid is [[0; 3]]; its last element is the new 4 x 4 level at handle
    3, not the 8 x 8 input image, which is its first element. *)
Lemma pyramid_original_is_not_last :
  (1 < 2)%Q /\ (0 <= 4)%Q /\
  (create_image_pyramid sample_smooth_pixels sample_resample_pixels nat
     0%nat 1%nat (Some [2%Q]) (Some [4%Q]) sample_runtime).1 =
    Return ([0; 3]%nat, [1; 5]%nat) /\
  last [0; 3]%nat <> Some 0%nat /\
  (img_size <$>
   heap (create_image_pyramid sample_smooth_pixels sample_resample_pixels nat
           0%nat 1%nat (Some [2%Q]) (Some [4%Q]) sample_runtime).2 !! 3%nat) =
    Some [4; 4] /\
  img_size sample_image = [8; 8].
Proof. vm_compute. repeat split; discriminate. Qed.

Lemma pyramid_original_first_witness :
  exists fixed_images moving_images rt',
    create_image_pyramid sample_smooth_pixels sample_resample_pixels nat
      0%nat 1%nat (Some [4%Q; 2%Q]) (Some [8%Q; 4%Q]) sample_runtime =
      (Return (fixed_images, moving_images), rt') /\
    length fixed_images = 3%nat /\
    head fixed_images = Some 0%nat.
Proof.
  destruct (pyramid_original_first sample_smooth_pixels sample_resample_pixels
              nat 0%nat 1%nat sample_image sample_image
              [(4%Q, 8%Q); (2%Q, 4%Q)] sample_runtime eq_refl eq_refl
              sample_descriptors_valid)
    as (fixed_images & moving_images & rt' & Hrun & Hlen & _ & Hhead & _).
  exists fixed_images, moving_images, rt'. repeat split; assumption.
Defined.

(** C2, the claim as stated fails: on a 4-D fixed image (8 x 8 x 8 x 2) the
    driver with no descriptors and no initial transform raises [RuntimeError]
    ([sitk.Image(8, 8, 8, pixelID)] is a 3-D image and [CopyInformation] refuses
    the 4-D grid) and leaves the filter untouched, while the filter run
    directly on a zero field on that image returns and advances its state. *)
Lemma single_scale_fails_on_4d_image :
  (multiscale_demons sample_smooth_pixels sample_resample_pixels
     unit sample_transform_pixels nat sample_execute
     0%nat 1%nat None None None sample_runtime_4d).1 = Raise RuntimeError /\
  registration_algorithm
    (multiscale_demons sample_smooth_pixels sample_resample_pixels
       unit sample_transform_pixels nat sample_execute
       0%nat 1%nat None None None sample_runtime_4d).2 = 0%nat /\
  executed_levels
    (calls (multiscale_demons sample_smooth_pixels sample_resample_pixels
              unit sample_transform_pixels nat sample_execute
              0%nat 1%nat None None None sample_runtime_4d).2) = [] /\
  (sample_execute (registration_algorithm sample_runtime_4d)
     sample_image_4d sample_image_4d
     (zero_displacement_field sample_image_4d)).1 = 1%nat /\
  img_size sample_image_4d = [8; 8; 8; 2] /\
  heap sample_runtime_4d !! 0%nat = Some sample_image_4d /\
  heap sample_runtime_4d !! 1%nat = Some sample_image_4d.
Proof. vm_compute. repeat split. Qed.

Lemma multiscale_demons_single_scale_witness :
  exists rt',
    multiscale_demons sample_smooth_pixels sample_resample_pixels
      unit sample_transform_pixels nat sample_execute
      0%nat 1%nat None None None sample_runtime =
      (Return (mkDisplacementFieldTransform
                 (zero_displacement_field sample_image)), rt') /\
    registration_algorithm rt' = 1%nat.
Proof.
  destruct (multiscale_demons_single_scale sample_smooth_pixels
              sample_resample_pixels unit sample_transform_pixels nat
              sample_execute 0%nat 1%nat sample_image sample_image None None
              sample_runtime eq_refl eq_refl)
    as (rt' & Hrun & Halg & _).
  - left. exists 8, 8. reflexivity.
  - left. reflexivity.
  - exists rt'. split; assumption.
Defined.

(** C3, the claim as stated fails: with the valid shrink factors [[2, 4]] and
    smoothing sigmas [[4, 8]] on an 8 x 8 image the driver runs the filter
    first on the 4 x 4 level (handle 7), then on the coarser 2 x 2 level
    (handle 3), then on the original: from the last element of the pyramid
    list to the first, which here is not from coarsest to finest. *)
Lemma registration_finer_level_first :
  Forall (fun sf : Q => (1 < sf)%Q) [2%Q; 4%Q] /\
  (create_image_pyramid sample_smooth_pixels sample_resample_pixels nat
     0%nat 1%nat (Some [2%Q; 4%Q]) (Some [4%Q; 8%Q]) sample_runtime).1 =
    Return ([0; 3; 7]%nat, [1; 5; 9]%nat) /\
  executed_levels
    (calls (multiscale_demons sample_smooth_pixels sample_resample_pixels
              unit sample_transform_pixels nat sample_execute
              0%nat 1%nat None (Some [2%Q; 4%Q]) (Some [4%Q; 8%Q])
              sample_runtime).2) = [(7, 9); (3, 5); (0, 1)]%nat /\
  (img_size <$>
   heap (multiscale_demons sample_smooth_pixels sample_resample_pixels
           unit sample_transform_pixels nat sample_execute
           0%nat 1%nat None (Some [2%Q; 4%Q]) (Some [4%Q; 8%Q])
           sample_runtime).2 !! 7%nat) = Some [4; 4] /\
  (img_size <$>
   heap (multiscale_demons sample_smooth_pixels sample_resample_pixels
           unit sample_transform_pixels nat sample_execute
           0%nat 1%nat None (Some [2%Q; 4%Q]) (Some [4%Q; 8%Q])
           sample_runtime).2 !! 3%nat) = Some [2; 2] /\
  (img_size <$>
   heap (multiscale_demons sample_smooth_pixels sample_resample_pixels
           unit sample_transform_pixels nat sample_execute
           0%nat 1%nat None (Some [2%Q; 4%Q]) (Some [4%Q; 8%Q])
           sample_runtime).2 !! 0%nat) = Some [8; 8].
Proof. split; [repeat constructor|]. vm_compute. repeat split. Qed.

Lemma registration_top_down_witness :
  exists rt',
    (run_registration sample_resample_pixels nat sample_execute
       [0; 1]%nat [1; 0]%nat 0%nat sample_runtime).2 = rt' /\
    calls rt' =
      [CallExecute 1 0 0 2; CallResampleLike 2 0 3; CallExecute 0 1 3 4;
       CallDisplacementFieldTransform 4]%nat.
Proof.
  destruct (registration_top_down sample_resample_pixels nat
              sample_execute [0; 1]%nat [1; 0]%nat
              [(sample_image, sample_image); (sample_image, sample_image)]
              0%nat sample_image sample_runtime)
    as (rt' & Hrun & Hcalls & _).
  - discriminate.
  - reflexivity.
  - repeat constructor.
  - reflexivity.
  - exists rt'. split; [now rewrite Hrun|exact Hcalls].
Defined.



(** C5, the claim as stated fails: the shrink factor 8 collapses both axes of
    an 8 x 8 image to one sample, and what reaches the caller is the
    [ZeroDivisionError] of the spacing formula, raised after the smoothing
    call. *)
Lemma collapse_propagates_ZeroDivisionError :
  (1 < 8)%Q /\
  new_size (img_size sample_image) 8 = Return [1; 1] /\
  (smooth_and_resample sample_smooth_pixels sample_resample_pixels nat
     0%nat 8 16 sample_runtime).1 = Raise ZeroDivisionError /\
  calls (smooth_and_resample sample_smooth_pixels sample_resample_pixels nat
           0%nat 8 16 sample_runtime).2 =
    [CallSmoothingRecursiveGaussian 0%nat 16 2%nat].
Proof. vm_compute. repeat split. Qed.

Lemma collapsed_axis_raises_ZeroDivisionError_witness :
  (smooth_and_resample sample_smooth_pixels sample_resample_pixels nat
     0%nat 8 16 sample_runtime).1 = Raise ZeroDivisionError.
Proof.
  rewrite (collapsed_axis_raises_ZeroDivisionError sample_smooth_pixels
             sample_resample_pixels nat 0%nat sample_image 8 16 [1; 1]
             0%nat 8 1%Q sample_runtime eq_refl eq_refl eq_refl eq_refl eq_refl).
  reflexivity.
Defined.

(** C6, the claim as stated fails: with the valid shrink factors [[2, 4]] the
    initial displacement field (handle 10) is made on the 4 x 4 grid of
    [fixed_images[-1]] although the pyramid holds the coarser 2 x 2 level
    (handle 3); and without an initial transform a 4-D fixed image gets no
    initial field at all, the driver raises [RuntimeError]. *)
Lemma initial_field_not_on_coarsest_level :
  Forall (fun sf : Q => (1 < sf)%Q) [2%Q; 4%Q] /\
  (create_image_pyramid sample_smooth_pixels sample_resample_pixels nat
     0%nat 1%nat (Some [2%Q; 4%Q]) (Some [4%Q; 8%Q]) sample_runtime).1 =
    Return ([0; 3; 7]%nat, [1; 5; 9]%nat) /\
  (create_initial_displacement_field unit sample_transform_pixels nat
     None [0; 3; 7]%nat
     (create_image_pyramid sample_smooth_pixels sample_resample_pixels nat
        0%nat 1%nat (Some [2%Q; 4%Q]) (Some [4%Q; 8%Q]) sample_runtime).2).1 =
    Return 10%nat /\
  (img_size <$>
   heap (create_initial_displacement_field unit sample_transform_pixels nat
           None [0; 3; 7]%nat
           (create_image_pyramid sample_smooth_pixels sample_resample_pixels
              nat 0%nat 1%nat (Some [2%Q; 4%Q]) (Some [4%Q; 8%Q])
              sample_runtime).2).2 !! 10%nat) = Some [4; 4] /\
  (img_size <$>
   heap (create_initial_displacement_field unit sample_transform_pixels nat
           None [0; 3; 7]%nat
           (create_image_pyramid sample_smooth_pixels sample_resample_pixels
              nat 0%nat 1%nat (Some [2%Q; 4%Q]) (Some [4%Q; 8%Q])
              sample_runtime).2).2 !! 3%nat) = Some [2; 2] /\
  (create_initial_displacement_field unit sample_transform_pixels nat
     None [0%nat] sample_runtime_4d).1 = Raise RuntimeError.
Proof. split; [repeat constructor|]. vm_compute. repeat split. Qed.

Lemma initial_field_on_first_level_grid_witness :
  exists fixed_images moving_images rt1 field rt2 fld,
    create_image_pyramid sample_smooth_pixels sample_resample_pixels nat
      0%nat 1%nat (Some [4%Q; 2%Q]) (Some [8%Q; 4%Q]) sample_runtime =
      (Return (fixed_images, moving_images), rt1) /\
    create_initial_displacement_field unit sample_transform_pixels nat
      None fixed_images rt1 = (Return field, rt2) /\
    heap rt2 !! field = Some fld /\
    img_size fld = [2; 2] /\
    no_finer (sample_level [2; 2] [7%Q; 7%Q])
             (sample_level [4; 4] [(7 # 3)%Q; (7 # 3)%Q]).
Proof.
  destruct (initial_field_on_first_level_grid sample_smooth_pixels
              sample_resample_pixels unit sample_transform_pixels nat
              sample_execute 0%nat 1%nat sample_image sample_image None
              [(4%Q, 8%Q); (2%Q, 4%Q)]
              [(sample_level [2; 2] [7%Q; 7%Q], sample_level [2; 2] [7%Q; 7%Q]);
               (sample_level [4; 4] [(7 # 3)%Q; (7 # 3)%Q],
                sample_level [4; 4] [(7 # 3)%Q; (7 # 3)%Q])]
              sample_runtime eq_refl eq_refl)
    as (fixed_images & moving_images & rt1 & field & rt2 & fld &
        Hpyr & Hinit & _ & Hfld & Hgrid & _ & _ & Hcoarse).
  - repeat constructor.
  - intros _. left. exists 2, 2. reflexivity.
  - exists fixed_images, moving_images, rt1, field, rt2, fld.
    split; [exact Hpyr|]. split; [exact Hinit|]. split; [exact Hfld|].
    split; [apply Hgrid|].
    assert (H : Forall (fun lv : Image * Image =>
                          no_finer (sample_level [2; 2] [7%Q; 7%Q]) lv.1)
                  ([(sample_level [2; 2] [7%Q; 7%Q],
                     sample_level [2; 2] [7%Q; 7%Q]);
                    (sample_level [4; 4] [(7 # 3)%Q; (7 # 3)%Q],
                     sample_level [4; 4] [(7 # 3)%Q; (7 # 3)%Q])] ++
                   [(sample_image, sample_image)])).
    { apply Hcoarse.
      - repeat constructor; cbn; lia.
      - repeat constructor.
      - intros first rest E. injection E as <- <-. repeat constructor.
        cbn. discriminate. }
    apply Forall_cons in H as [_ H]. apply Forall_cons in H as [H _]. exact H.
Defined.


Lemma new_size_axis_shrinks_witness :
  exists n, new_size_axis 8 2 = Return n /\ n <= 8 /\
            ((2 <= 2)%Q -> 1 < 8 -> n < 8).
Proof. apply (new_size_axis_shrinks 8 2); [lia|reflexivity]. Defined.

Lemma levels_derive_from_base_images_witness :
  exists fixed_levels moving_levels rt' cs,
    create_image_pyramid sample_smooth_pixels sample_resample_pixels nat
      0%nat 1%nat (Some [4%Q; 2%Q]) (Some [8%Q; 4%Q]) sample_runtime =
      (Return (0%nat :: fixed_levels, 1%nat :: moving_levels), rt') /\
    calls rt' = calls sample_runtime ++ cs /\
    pyramid_calls 0%nat 1%nat cs.
Proof.
  destruct (levels_derive_from_base_images sample_smooth_pixels
              sample_resample_pixels unit sample_transform_pixels nat
              sample_execute 0%nat 1%nat sample_image sample_image None
              [(4%Q, 8%Q); (2%Q, 4%Q)] sample_runtime) as [_ Hlevels].
  destruct (Hlevels eq_refl eq_refl sample_descriptors_valid)
    as (fixed_levels & moving_levels & rt' & cs & Hrun & _ & _ & Hcalls & Hpc).
  exists fixed_levels, moving_levels, rt', cs. repeat split; assumption.
Defined.


(** ** The further properties at concrete inputs *)

Lemma smooth_and_resample_ZeroDivisionError_iff_witness :
  ((8 == 0)%Q /\ img_size sample_image <> []) \/ collapses sample_image 8.
Proof.
  apply (proj1 (smooth_and_resample_ZeroDivisionError_iff sample_smooth_pixels
                  sample_resample_pixels nat 0%nat sample_image 8 16
                  sample_runtime eq_refl eq_refl)).
  reflexivity.
Defined.

Lemma new_size_axis_monotone_witness :
  exists coarse fine,
    new_size_axis 8 4 = Return coarse /\ new_size_axis 8 2 = Return fine /\
    coarse <= fine.
Proof.
  apply (new_size_axis_monotone 8 8 2 4); [lia|lia|reflexivity|discriminate].
Defined.

Lemma new_size_axis_whole_factor_witness :
  new_size_axis 8 (inject_Z 4) = Return ((2 * 8 + 4) / (2 * 4)) /\
  ((4 | 8) -> new_size_axis 8 (inject_Z 4) = Return (8 / 4)).
Proof. apply (new_size_axis_whole_factor 8 4); lia. Defined.




Lemma multiscale_demons_in_descriptor_order_witness :
  exists rt' level_handles,
    (multiscale_demons sample_smooth_pixels sample_resample_pixels
       unit sample_transform_pixels nat sample_execute
       0%nat 1%nat None (Some [4%Q; 2%Q]) (Some [8%Q; 4%Q]) sample_runtime).2 =
      rt' /\
    registration_algorithm rt' = 3%nat /\
    executed_levels (calls rt') = level_handles ++ [(0, 1)%nat] /\
    length level_handles = 2%nat.
Proof.
  destruct (multiscale_demons_in_descriptor_order sample_smooth_pixels
              sample_resample_pixels unit sample_transform_pixels nat
              sample_execute 0%nat 1%nat sample_image sample_image None
              [(4%Q, 8%Q); (2%Q, 4%Q)]
              [(sample_level [2; 2] [7%Q; 7%Q], sample_level [2; 2] [7%Q; 7%Q]);
               (sample_level [4; 4] [(7 # 3)%Q; (7 # 3)%Q],
                sample_level [4; 4] [(7 # 3)%Q; (7 # 3)%Q])]
              sample_runtime eq_refl eq_refl)
    as (rt' & level_handles & Hrun & Halg & Hexec & Hlen).
  - repeat constructor.
  - intros _. left. exists 2, 2. reflexivity.
  - exists rt', level_handles. split; [exact (f_equal snd Hrun)|].
    repeat split; assumption.
Defined.

Lemma decreasing_factors_register_coarse_to_fine_witness :
  exists t rt' registered,
    multiscale_demons sample_smooth_pixels sample_resample_pixels
      unit sample_transform_pixels nat sample_execute
      0%nat 1%nat None (Some [4%Q; 2%Q]) (Some [8%Q; 4%Q]) sample_runtime =
      (Return t, rt') /\
    last registered = Some (0, 1)%nat /\
    coarsest_first nat rt' registered.*1.
Proof.
  destruct (decreasing_factors_register_coarse_to_fine sample_smooth_pixels
              sample_resample_pixels unit sample_transform_pixels nat
              sample_execute 0%nat 1%nat sample_image sample_image None
              [(4%Q, 8%Q); (2%Q, 4%Q)]
              [(sample_level [2; 2] [7%Q; 7%Q], sample_level [2; 2] [7%Q; 7%Q]);
               (sample_level [4; 4] [(7 # 3)%Q; (7 # 3)%Q],
                sample_level [4; 4] [(7 # 3)%Q; (7 # 3)%Q])]
              sample_runtime eq_refl eq_refl)
    as (t & rt' & registered & Hrun & _ & Hlast & _ & Hcoarse & _).
  - repeat constructor.
  - intros _. left. exists 2, 2. reflexivity.
  - repeat constructor; lia.
  - repeat constructor; lia.
  - repeat constructor.
  - intros i d d' Hd Hd'. destruct i as [|[|i]]; cbn in Hd, Hd';
      try discriminate.
    injection Hd as <-. injection Hd' as <-. cbn. discriminate.
  - exists t, rt', registered. repeat split; assumption.
Defined.

Lemma zero_field_needs_2d_or_3d_witness :
  exists rt',
    multiscale_demons sample_smooth_pixels sample_resample_pixels
      unit sample_transform_pixels nat sample_execute
      0%nat 1%nat None (Some []) (Some []) sample_runtime_4d =
      (Raise RuntimeError, rt') /\
    registration_algorithm rt' = 0%nat.
Proof.
  destruct (zero_field_needs_2d_or_3d sample_smooth_pixels
              sample_resample_pixels unit sample_transform_pixels nat
              sample_execute 0%nat 1%nat sample_image_4d sample_image_4d
              [] [] sample_runtime_4d eq_refl eq_refl)
    as (rt' & Hrun & Halg & _).
  - constructor.
  - cbn. intros [(w & h & E)|(w & h & d & E & _)]; discriminate.
  - exists rt'. split; [exact Hrun|exact Halg].
Defined.

Lemma mesh_size_rounds_witness :
  exists mesh, mesh_size sample_image = Return mesh /\ length mesh = 2%nat.
Proof.
  destruct (mesh_size_rounds sample_image) as (mesh & Hmesh & _ & Hnear).
  assert (Hall : Forall2 (fun (physical : Q) (n : Z) => True)
                   (take 3 (image_physical_size sample_image)) mesh).
  { eapply Forall2_impl; [apply Hnear|trivial].
    - repeat constructor; lia.
    - repeat constructor; discriminate. }
  exists mesh. split; [exact Hmesh|].
  apply Forall2_length in Hall. now rewrite <- Hall.
Defined.
